(** * datareposrc: the MLOps data-repository source element

    A shallow embedding of [gst/datarepo/gstdatareposrc.c] and the
    properties of its reading paths.  The element's C state is a record
    that every operation takes and returns; the operating system (files,
    descriptors, the outcome of each [read]) is a second record, the
    [World], threaded the same way.  Integers of a fixed width are [Z]
    with the wrap-around written out. *)

From Stdlib Require Import ZArith String Ascii List Bool Lia.
From Stdlib.Strings Require Import Byte.
From Stdlib Require Import DecimalString.
Import ListNotations.
Open Scope Z_scope.

(** ** Machine integers *)

(** [guint] and [guint64]: unsigned, wrapping at 2^32 and 2^64. *)
Definition to_guint (x : Z) : Z := x mod 2 ^ 32.
Definition to_guint64 (x : Z) : Z := x mod 2 ^ 64.

(** A single [read] transfers at most this many bytes (Linux), so that the
    count it returns always fits the [int ret] it is stored in. *)
Definition MAX_RW_COUNT : Z := 2147479552.

(** ** Enumerations of the framework *)

Inductive GstFlowReturn : Type :=
  | GST_FLOW_OK
  | GST_FLOW_EOS
  | GST_FLOW_ERROR.

Inductive GstState : Type :=
  | GST_STATE_VOID_PENDING
  | GST_STATE_NULL
  | GST_STATE_READY
  | GST_STATE_PAUSED
  | GST_STATE_PLAYING.

Inductive media_type : Type :=
  | _NNS_MEDIA_INVALID
  | _NNS_VIDEO
  | _NNS_AUDIO
  | _NNS_TEXT
  | _NNS_OCTET
  | _NNS_TENSOR
  | _NNS_IMAGE
  | _NNS_MEDIA_ANY.

(** The error a caller of [gst_data_repo_src_set_location] finds in its
    [GError **] slot. *)
Inductive GError : Type :=
  | GST_URI_ERROR_BAD_STATE.

(** ** Buffers *)

(** A [GstMemory] obtained from [gst_allocator_alloc]: [mem_size] bytes are
    allocated, and [mem_data] are the bytes the reader stored from offset 0
    on.  Whatever lies beyond [mem_data] was never written. *)
Record GstMemory : Type := {
  mem_size : Z;
  mem_data : list byte
}.

(** A [GstBuffer] is the sequence of memories appended to it. *)
Definition GstBuffer : Type := list GstMemory.

(** ** The operating system *)

Inductive errno_t : Type :=
  | ENOENT | EACCES | EINTR | EAGAIN | EIO | EBADF | EFAULT | EISDIR.

(** File type bits of [st_mode]. *)
Inductive file_type : Type :=
  | S_IFREG | S_IFDIR | S_IFSOCK | S_IFIFO | S_IFCHR | S_IFBLK.

(** What a path leads to: the result [fstat] would give ([None] when
    [fstat] itself fails) and the bytes behind it. *)
Record inode : Type := {
  i_stat : option file_type;
  i_data : list byte
}.

(** An open file description: the node and the kernel's file offset. *)
Record open_file : Type := {
  of_node : inode;
  of_pos : Z
}.

(** What the next [read] does besides a plain transfer: fail with an
    [errno], or hand over at most [k] bytes. *)
Inductive read_event : Type :=
  | ReadFails (e : errno_t)
  | ReadShort (k : positive).

Inductive syscall : Type :=
  | call_open (path : string)
  | call_fstat (fd : Z)
  | call_close (fd : Z)
  | call_read (fd : Z) (count : Z)
  | call_get_contents (path : string).

Record World : Type := {
  w_path : string -> errno_t + inode;
  w_fds : list (Z * open_file);
  w_events : list read_event;
  w_trace : list syscall
}.

Definition log (c : syscall) (w : World) : World :=
  {| w_path := w_path w; w_fds := w_fds w; w_events := w_events w;
     w_trace := c :: w_trace w |}.

Definition with_fds (w : World) (t : list (Z * open_file)) : World :=
  {| w_path := w_path w; w_fds := t; w_events := w_events w;
     w_trace := w_trace w |}.

Definition with_events (w : World) (evs : list read_event) : World :=
  {| w_path := w_path w; w_fds := w_fds w; w_events := evs;
     w_trace := w_trace w |}.

Fixpoint lookup_fd (fd : Z) (t : list (Z * open_file)) : option open_file :=
  match t with
  | [] => None
  | (k, f) :: t' => if k =? fd then Some f else lookup_fd fd t'
  end.

Fixpoint remove_fd (fd : Z) (t : list (Z * open_file)) : list (Z * open_file) :=
  match t with
  | [] => []
  | (k, f) :: t' => if k =? fd then remove_fd fd t' else (k, f) :: remove_fd fd t'
  end.

Fixpoint update_fd (fd : Z) (f : open_file) (t : list (Z * open_file))
  : list (Z * open_file) :=
  match t with
  | [] => []
  | (k, g) :: t' => if k =? fd then (k, f) :: t' else (k, g) :: update_fd fd f t'
  end.

(** A descriptor no open file uses, above the three standard streams. *)
Definition fresh_fd (t : list (Z * open_file)) : Z :=
  1 + fold_right (fun e m => Z.max (fst e) m) 2 t.

(** [g_open (filename, O_RDONLY, 0)]: the descriptor, or [-1] and [errno]. *)
Definition g_open (w : World) (path : option string) : (errno_t + Z) * World :=
  match path with
  | None => (inl EFAULT, w)
  | Some p =>
      let w1 := log (call_open p) w in
      match w_path w p with
      | inl e => (inl e, w1)
      | inr node =>
          let fd := fresh_fd (w_fds w) in
          (inr fd, with_fds w1 ((fd, {| of_node := node; of_pos := 0 |}) :: w_fds w))
      end
  end.

(** [fstat (fd, &stat_results)]: the file type, or [None] for a result
    below zero. *)
Definition fstat (w : World) (fd : Z) : option file_type * World :=
  let w1 := log (call_fstat fd) w in
  match lookup_fd fd (w_fds w) with
  | None => (None, w1)
  | Some f => (i_stat (of_node f), w1)
  end.

(** [g_close (fd, NULL)]. *)
Definition g_close (w : World) (fd : Z) : World :=
  with_fds (log (call_close fd) w) (remove_fd fd (w_fds w)).

(** The bytes of [l] from offset [pos], at most [len] of them. *)
Definition sub_bytes (pos len : Z) (l : list byte) : list byte :=
  firstn (Z.to_nat len) (skipn (Z.to_nat pos) l).

(** How many bytes a [read] of [count] bytes can get from [f]. *)
Definition available (f : open_file) (count : Z) : Z :=
  Z.max 0
    (Z.min (Z.min count MAX_RW_COUNT)
       (Z.of_nat (length (i_data (of_node f))) - of_pos f)).

Definition advance (f : open_file) (n : Z) : open_file :=
  {| of_node := of_node f; of_pos := of_pos f + n |}.

(** [read (fd, buf, count)]: [inl errno] stands for the result [-1]; on
    success the bytes stored in [buf], whose number is the result. *)
Definition read (w : World) (fd count : Z) : (errno_t + list byte) * World :=
  let w1 := log (call_read fd count) w in
  match lookup_fd fd (w_fds w) with
  | None => (inl EBADF, w1)
  | Some f =>
      match w_events w with
      | ReadFails e :: evs => (inl e, with_events w1 evs)
      | ReadShort k :: evs =>
          let n := Z.min (Z.pos k) (available f count) in
          (inr (sub_bytes (of_pos f) n (i_data (of_node f))),
           with_fds (with_events w1 evs) (update_fd fd (advance f n) (w_fds w)))
      | [] =>
          let n := available f count in
          (inr (sub_bytes (of_pos f) n (i_data (of_node f))),
           with_fds w1 (update_fd fd (advance f n) (w_fds w)))
      end
  end.

(** [g_file_get_contents (filename, &data, &size, &error)]: the whole
    content of a file that can be opened, examined and read. *)
Definition g_file_get_contents (w : World) (path : option string)
  : option (list byte) * World :=
  match path with
  | None => (None, w)
  | Some p =>
      let w1 := log (call_get_contents p) w in
      match w_path w p with
      | inl _ => (None, w1)
      | inr node =>
          match i_stat node with
          | None | Some S_IFDIR => (None, w1)
          | Some _ => (Some (i_data node), w1)
          end
      end
  end.

(** ** The element *)

(** [struct _GstDataRepoSrc], with [GST_STATE (src)] of the parent element
    as the field [state].  [frame_index] and its two bounds are plain
    integers: their C type is declared in [gstdatareposrc.h]. *)
Record GstDataRepoSrc : Type := {
  state : GstState;
  filename : option string;
  fd : Z;
  media : media_type;
  offset : Z;
  read_position : Z;
  successful_read : bool;
  frame_index : Z;
  start_frame_index : Z;
  stop_frame_index : Z;
  media_size : Z;
  tensors_size : list Z
}.

Definition set_state (s : GstDataRepoSrc) (v : GstState) : GstDataRepoSrc :=
  {| state := v; filename := filename s; fd := fd s; media := media s;
     offset := offset s; read_position := read_position s;
     successful_read := successful_read s; frame_index := frame_index s;
     start_frame_index := start_frame_index s;
     stop_frame_index := stop_frame_index s; media_size := media_size s;
     tensors_size := tensors_size s |}.

Definition set_filename (s : GstDataRepoSrc) (v : option string) : GstDataRepoSrc :=
  {| state := state s; filename := v; fd := fd s; media := media s;
     offset := offset s; read_position := read_position s;
     successful_read := successful_read s; frame_index := frame_index s;
     start_frame_index := start_frame_index s;
     stop_frame_index := stop_frame_index s; media_size := media_size s;
     tensors_size := tensors_size s |}.

Definition set_fd (s : GstDataRepoSrc) (v : Z) : GstDataRepoSrc :=
  {| state := state s; filename := filename s; fd := v; media := media s;
     offset := offset s; read_position := read_position s;
     successful_read := successful_read s; frame_index := frame_index s;
     start_frame_index := start_frame_index s;
     stop_frame_index := stop_frame_index s; media_size := media_size s;
     tensors_size := tensors_size s |}.

Definition set_media (s : GstDataRepoSrc) (v : media_type) : GstDataRepoSrc :=
  {| state := state s; filename := filename s; fd := fd s; media := v;
     offset := offset s; read_position := read_position s;
     successful_read := successful_read s; frame_index := frame_index s;
     start_frame_index := start_frame_index s;
     stop_frame_index := stop_frame_index s; media_size := media_size s;
     tensors_size := tensors_size s |}.

Definition set_offset (s : GstDataRepoSrc) (v : Z) : GstDataRepoSrc :=
  {| state := state s; filename := filename s; fd := fd s; media := media s;
     offset := v; read_position := read_position s;
     successful_read := successful_read s; frame_index := frame_index s;
     start_frame_index := start_frame_index s;
     stop_frame_index := stop_frame_index s; media_size := media_size s;
     tensors_size := tensors_size s |}.

Definition set_read_position (s : GstDataRepoSrc) (v : Z) : GstDataRepoSrc :=
  {| state := state s; filename := filename s; fd := fd s; media := media s;
     offset := offset s; read_position := v;
     successful_read := successful_read s; frame_index := frame_index s;
     start_frame_index := start_frame_index s;
     stop_frame_index := stop_frame_index s; media_size := media_size s;
     tensors_size := tensors_size s |}.

Definition set_successful_read (s : GstDataRepoSrc) (v : bool) : GstDataRepoSrc :=
  {| state := state s; filename := filename s; fd := fd s; media := media s;
     offset := offset s; read_position := read_position s;
     successful_read := v; frame_index := frame_index s;
     start_frame_index := start_frame_index s;
     stop_frame_index := stop_frame_index s; media_size := media_size s;
     tensors_size := tensors_size s |}.

Definition set_frame_index (s : GstDataRepoSrc) (v : Z) : GstDataRepoSrc :=
  {| state := state s; filename := filename s; fd := fd s; media := media s;
     offset := offset s; read_position := read_position s;
     successful_read := successful_read s; frame_index := v;
     start_frame_index := start_frame_index s;
     stop_frame_index := stop_frame_index s; media_size := media_size s;
     tensors_size := tensors_size s |}.

Definition set_stop_frame_index (s : GstDataRepoSrc) (v : Z) : GstDataRepoSrc :=
  {| state := state s; filename := filename s; fd := fd s; media := media s;
     offset := offset s; read_position := read_position s;
     successful_read := successful_read s; frame_index := frame_index s;
     start_frame_index := start_frame_index s;
     stop_frame_index := v; media_size := media_size s;
     tensors_size := tensors_size s |}.

Definition set_media_size (s : GstDataRepoSrc) (v : Z) : GstDataRepoSrc :=
  {| state := state s; filename := filename s; fd := fd s; media := media s;
     offset := offset s; read_position := read_position s;
     successful_read := successful_read s; frame_index := frame_index s;
     start_frame_index := start_frame_index s;
     stop_frame_index := stop_frame_index s; media_size := v;
     tensors_size := tensors_size s |}.

Definition set_tensors_size (s : GstDataRepoSrc) (v : list Z) : GstDataRepoSrc :=
  {| state := state s; filename := filename s; fd := fd s; media := media s;
     offset := offset s; read_position := read_position s;
     successful_read := successful_read s; frame_index := frame_index s;
     start_frame_index := start_frame_index s;
     stop_frame_index := stop_frame_index s; media_size := media_size s;
     tensors_size := v |}.

(** [MAX_ITEM], the capacity of [tensors_size], is a macro of
    [gstdatareposrc.h]; the functions that depend on it take it as their
    first argument.  Instance memory comes zero-filled from the object
    system, which is where the fields that [gst_data_repo_src_init] leaves
    alone get their value. *)
Definition gst_data_repo_src_init (MAX_ITEM : nat) : GstDataRepoSrc :=
  {| state := GST_STATE_NULL;
     filename := None;
     fd := 0;
     media := _NNS_TENSOR;
     offset := 0;
     read_position := 0;
     successful_read := false;
     frame_index := 0;
     start_frame_index := 0;
     stop_frame_index := 0;
     media_size := 0;
     tensors_size := repeat 0 MAX_ITEM |}.

Definition GstState_eqb (a b : GstState) : bool :=
  match a, b with
  | GST_STATE_VOID_PENDING, GST_STATE_VOID_PENDING
  | GST_STATE_NULL, GST_STATE_NULL
  | GST_STATE_READY, GST_STATE_READY
  | GST_STATE_PAUSED, GST_STATE_PAUSED
  | GST_STATE_PLAYING, GST_STATE_PLAYING => true
  | _, _ => false
  end.

(** [gst_data_repo_src_set_location (src, location, err)]; [err] tells
    whether the caller passed a slot for the error.  The result is the
    [gboolean], the error stored in the slot, and the element. *)
Definition gst_data_repo_src_set_location
    (src : GstDataRepoSrc) (location : option string) (err : bool)
  : bool * option GError * GstDataRepoSrc :=
  if negb (GstState_eqb (state src) GST_STATE_READY)
     && negb (GstState_eqb (state src) GST_STATE_NULL)
  then (false, if err then Some GST_URI_ERROR_BAD_STATE else None, src)
  else
    match location with
    | None => (true, None, set_filename src None)
    | Some l => (true, None, set_filename src (Some l))
    end.

(** The only property is [PROP_LOCATION]. *)
Definition gst_data_repo_src_set_property
    (src : GstDataRepoSrc) (value : option string) : GstDataRepoSrc :=
  snd (gst_data_repo_src_set_location src value false).

Definition gst_data_repo_src_get_property (src : GstDataRepoSrc) : option string :=
  filename src.

(** ** Reading records *)

(** How the [while (to_read > 0)] loop is left. *)
Inductive loop_exit : Type :=
  | loop_end
  | goto_could_not_read
  | goto_eos.

Definition errno_retry (e : errno_t) : bool :=
  match e with
  | EAGAIN | EINTR => true
  | _ => false
  end.

(** The loop that [gst_data_repo_src_read_tensors] and
    [gst_data_repo_src_read_others] both contain.  [data] holds the
    [byte_read] bytes stored so far; the next ones go to
    [data + byte_read].  [None] means the fuel ran out. *)
Fixpoint read_loop (fuel : nat) (src : GstDataRepoSrc) (w : World)
    (data : list byte) (byte_read to_read : Z)
  : option (loop_exit * GstDataRepoSrc * World * list byte) :=
  match fuel with
  | O => None
  | S fuel' =>
      if 0 <? to_read then
        match read w (fd src) to_read with
        | (inl e, w1) =>
            if errno_retry e
            then read_loop fuel' src w1 data byte_read to_read
            else Some (goto_could_not_read, src, w1, data)
        | (inr bytes, w1) =>
            let ret := Z.of_nat (length bytes) in
            if ret =? 0 then
              if 0 <? byte_read
              then Some (loop_end, src, w1, data)
              else Some (goto_eos, src, w1, data)
            else
              let src1 :=
                set_offset
                  (set_read_position src (to_guint64 (read_position src + ret)))
                  (to_guint64 (offset src + ret)) in
              read_loop fuel' src1 w1 (data ++ bytes)
                (to_guint (byte_read + ret)) (to_guint (to_read - ret))
        end
      else Some (loop_end, src, w, data)
  end.

(** Enough fuel for the loop: every turn either uses up a pending event
    or takes at least one byte off [to_read]. *)
Definition loop_fuel (w : World) (to_read : Z) : nat :=
  S (length (w_events w) + Z.to_nat to_read).

Definition flow_result : Type :=
  (GstFlowReturn * option GstBuffer * GstDataRepoSrc * World)%type.

(** The body of [for (i = 0; i < 2; i++)], over the indices still to do.
    Allocating and mapping the memory is taken to succeed. *)
Fixpoint read_tensors_for (idx : list nat) (src : GstDataRepoSrc) (w : World)
    (buf : GstBuffer) : option flow_result :=
  match idx with
  | [] => Some (GST_FLOW_OK, Some buf, src, w)
  | i :: rest =>
      let size := nth i (tensors_size src) 0 in
      let to_read := to_guint size in
      match read_loop (loop_fuel w to_read) src w [] 0 to_read with
      | None => None
      | Some (loop_end, src1, w1, data) =>
          read_tensors_for rest src1 w1
            (buf ++ [{| mem_size := size; mem_data := data |}])
      | Some (goto_could_not_read, src1, w1, _) =>
          Some (GST_FLOW_ERROR, None, src1, w1)
      | Some (goto_eos, src1, w1, _) =>
          Some (GST_FLOW_EOS, None, src1, w1)
      end
  end.

Definition gst_data_repo_src_read_tensors (src : GstDataRepoSrc) (w : World)
  : option flow_result :=
  read_tensors_for (seq 0 2) src w [].

Definition gst_data_repo_src_read_others (src : GstDataRepoSrc) (w : World)
  : option flow_result :=
  let to_read := to_guint (media_size src) in
  match read_loop (loop_fuel w to_read) src w [] 0 to_read with
  | None => None
  | Some (loop_end, src1, w1, data) =>
      Some (GST_FLOW_OK,
            Some [{| mem_size := media_size src; mem_data := data |}], src1, w1)
  | Some (goto_could_not_read, src1, w1, _) =>
      Some (GST_FLOW_ERROR, None, src1, w1)
  | Some (goto_eos, src1, w1, _) =>
      Some (GST_FLOW_EOS, None, src1, w1)
  end.

Section Images.

(** [g_strdup_printf (format, index)] of the C library. *)
Variable g_strdup_printf : string -> Z -> string.

Definition gst_data_repo_src_get_image_filename (src : GstDataRepoSrc)
  : option string :=
  match media src with
  | _NNS_IMAGE =>
      match filename src with
      | Some format => Some (g_strdup_printf format (frame_index src))
      | None => None
      end
  | _ => None
  end.

Definition gst_data_repo_src_read_multi_images (src : GstDataRepoSrc) (w : World)
  : flow_result :=
  let name := gst_data_repo_src_get_image_filename src in
  match g_file_get_contents w name with
  | (None, w1) =>
      if successful_read src
      then (GST_FLOW_EOS, None, src, w1)
      else (GST_FLOW_ERROR, None, src, w1)
  | (Some data, w1) =>
      let src1 := set_successful_read src true in
      let src2 := set_frame_index src1 (frame_index src1 + 1) in
      (GST_FLOW_OK,
       Some [{| mem_size := Z.of_nat (length data); mem_data := data |}],
       src2, w1)
  end.

Definition gst_data_repo_src_create (src : GstDataRepoSrc) (w : World)
  : option flow_result :=
  match media src with
  | _NNS_TENSOR => gst_data_repo_src_read_tensors src w
  | _NNS_IMAGE => Some (gst_data_repo_src_read_multi_images src w)
  | _NNS_VIDEO | _NNS_AUDIO | _NNS_TEXT | _NNS_OCTET =>
      gst_data_repo_src_read_others src w
  | _ => Some (GST_FLOW_ERROR, None, src, w)
  end.

Definition string_is_empty (s : string) : bool :=
  match s with
  | EmptyString => true
  | String _ _ => false
  end.

Definition error_close (src : GstDataRepoSrc) (w : World)
  : bool * GstDataRepoSrc * World :=
  (false, set_fd src 0, g_close w (fd src)).

Definition gst_data_repo_src_start (src : GstDataRepoSrc) (w : World)
  : bool * GstDataRepoSrc * World :=
  match filename src with
  | None => (false, src, w)
  | Some f =>
      if string_is_empty f then (false, src, w)
      else
        let src1 := set_frame_index src (start_frame_index src) in
        let name :=
          match media src1 with
          | _NNS_IMAGE => gst_data_repo_src_get_image_filename src1
          | _ => Some f
          end in
        match g_open w name with
        | (inl _, w1) => (false, set_fd src1 (-1), w1)
        | (inr d, w1) =>
            let src2 := set_fd src1 d in
            if d <? 0 then (false, src2, w1)
            else
              match fstat w1 d with
              | (None, w2) => error_close src2 w2
              | (Some S_IFDIR, w2) => error_close src2 w2
              | (Some S_IFSOCK, w2) => error_close src2 w2
              | (Some S_IFREG, w2) =>
                  let src3 := set_read_position src2 0 in
                  match media src3 with
                  | _NNS_IMAGE => (true, set_fd src3 0, g_close w2 (fd src3))
                  | _ => (true, src3, w2)
                  end
              | (Some _, w2) => error_close src2 w2
              end
        end
  end.

Definition gst_data_repo_src_stop (src : GstDataRepoSrc) (w : World)
  : bool * GstDataRepoSrc * World :=
  (true, set_fd src 0, g_close w (fd src)).

End Images.

(** ** Format resolution *)

Inductive tensor_type : Type :=
  | _NNS_INT32 | _NNS_UINT32 | _NNS_INT16 | _NNS_UINT16 | _NNS_INT8
  | _NNS_UINT8 | _NNS_FLOAT64 | _NNS_FLOAT32 | _NNS_INT64 | _NNS_UINT64.

(** One component of a tensors descriptor: its shape and element type. *)
Record GstTensorInfo : Type := {
  dimension : list Z;
  type : tensor_type
}.

(** [config.info]: [num_tensors] is the length of the list. *)
Definition GstTensorsConfig : Type := list GstTensorInfo.

Inductive FormatError : Type :=
  | TooManyComponents
  | Malformed.

Definition element_size (t : tensor_type) : Z :=
  match t with
  | _NNS_INT8 | _NNS_UINT8 => 1
  | _NNS_INT16 | _NNS_UINT16 => 2
  | _NNS_INT32 | _NNS_UINT32 | _NNS_FLOAT32 => 4
  | _NNS_FLOAT64 | _NNS_INT64 | _NNS_UINT64 => 8
  end.

(** A shape that parses: at least one dimension, each a positive count. *)
Definition shape_ok (i : GstTensorInfo) : bool :=
  match dimension i with
  | [] => false
  | d => forallb (fun x => 0 <? x) d
  end.

(** Modelled from the spec: [gst_tensors_config_from_structure] is defined
    outside this file.  A Tensor descriptor carries a list of per-component
    shape and datatype pairs; resolving it fails with [TooManyComponents]
    if the count exceeds [MAX_ITEM] and with [Malformed] if shape parsing
    fails. *)
Definition gst_tensors_config_from_structure
    (MAX_ITEM : nat) (s : list GstTensorInfo)
  : FormatError + GstTensorsConfig :=
  if (MAX_ITEM <? length s)%nat then inl TooManyComponents
  else if forallb shape_ok s then inr s
  else inl Malformed.

(** Modelled from the spec: [gst_tensor_info_get_size] is defined outside
    this file.  The size of each component is product(dimensions) times the
    datatype width. *)
Definition gst_tensor_info_get_size (i : GstTensorInfo) : Z :=
  fold_right Z.mul 1 (dimension i) * element_size (type i).

(** The total declared size of a descriptor. *)
Definition declared_size (s : list GstTensorInfo) : Z :=
  fold_right (fun i acc => gst_tensor_info_get_size i + acc) 0 s.

(** [a[i] = v], for [i] inside the array. *)
Fixpoint array_set (a : list Z) (i : nat) (v : Z) : list Z :=
  match a, i with
  | [], _ => []
  | _ :: a', O => v :: a'
  | x :: a', S i' => x :: array_set a' i' v
  end.

(** The negotiated caps, by media type name, with the fields the size
    computations read. *)
Inductive GstCaps : Type :=
  | other_tensors (s : list GstTensorInfo)
  | video_x_raw (info_size : Z)
  | audio_x_raw (rate channel depth : Z)
  | text_x_raw
  | application_octet_stream
  | image_any
  | unknown_caps.

(** The [for] loop of [gst_data_repo_src_get_tensors_size], from index [i]
    on: the sizes array and the running [guint size]. *)
Fixpoint tensors_size_loop (i : nat) (info : list GstTensorInfo)
    (sizes : list Z) (size : Z) : list Z * Z :=
  match info with
  | [] => (sizes, size)
  | x :: rest =>
      let v := to_guint (gst_tensor_info_get_size x) in
      tensors_size_loop (S i) rest (array_set sizes i v) (to_guint (size + v))
  end.

Definition gst_data_repo_src_get_tensors_size
    (MAX_ITEM : nat) (src : GstDataRepoSrc) (s : list GstTensorInfo)
  : Z * GstDataRepoSrc :=
  match gst_tensors_config_from_structure MAX_ITEM s with
  | inl _ => (0, src)
  | inr config =>
      let '(sizes, size) := tensors_size_loop 0 config (tensors_size src) 0 in
      (size, set_tensors_size src sizes)
  end.

Definition gst_data_repo_src_get_video_size (info_size : Z) : Z :=
  to_guint info_size.

Definition gst_data_repo_src_get_audio_size (rate channel depth : Z) : Z :=
  to_guint (channel * (Z.quot depth 8) * rate).

Definition DEFAULT_BLOCKSIZE : Z := 4 * 1024.

Definition gst_data_repo_src_get_media_info
    (MAX_ITEM : nat) (src : GstDataRepoSrc) (caps : GstCaps)
  : bool * GstDataRepoSrc :=
  let sized (src1 : GstDataRepoSrc) (size : Z) :=
    if size =? 0 then (false, src1) else (true, set_media_size src1 size) in
  match caps with
  | other_tensors s =>
      let '(size, src1) := gst_data_repo_src_get_tensors_size MAX_ITEM src s in
      sized (set_media src1 _NNS_TENSOR) size
  | video_x_raw info_size =>
      sized (set_media src _NNS_VIDEO) (gst_data_repo_src_get_video_size info_size)
  | audio_x_raw rate channel depth =>
      sized (set_media src _NNS_AUDIO)
        (gst_data_repo_src_get_audio_size rate channel depth)
  | text_x_raw => sized (set_media src _NNS_TEXT) 0
  | application_octet_stream => sized (set_media src _NNS_OCTET) 3176
  | image_any => sized (set_media src _NNS_IMAGE) DEFAULT_BLOCKSIZE
  | unknown_caps => (false, src)
  end.

Definition gst_data_repo_src_set_caps
    (MAX_ITEM : nat) (src : GstDataRepoSrc) (caps : GstCaps)
  : bool * GstDataRepoSrc :=
  gst_data_repo_src_get_media_info MAX_ITEM src caps.

(** ** The hosting pipeline *)

(** The streaming task of the base class: it asks for buffers, at most
    [calls] times, and stops at the first result that is not
    [GST_FLOW_OK].  The outcome is the buffers pushed downstream and that
    last result ([None] while the task could still go on). *)
Fixpoint stream (create : GstDataRepoSrc -> World -> option flow_result)
    (calls : nat) (src : GstDataRepoSrc) (w : World)
  : option (list GstBuffer * option GstFlowReturn) :=
  match calls with
  | O => Some ([], None)
  | S calls' =>
      match create src w with
      | None => None
      | Some (GST_FLOW_OK, Some buf, src1, w1) =>
          match stream create calls' src1 w1 with
          | Some (bufs, r) => Some (buf :: bufs, r)
          | None => None
          end
      | Some (r, _, _, _) => Some ([], Some r)
      end
  end.

(** What the pipeline and its surroundings do to one element. *)
Inductive host_call : Type :=
  | host_set_location (location : option string)
  | host_set_caps (caps : GstCaps)
  | host_start
  | host_create
  | host_stop
  | host_unlink (path : string).

(** An element together with what an observer has counted: the images
    delivered since the last [start], the images delivered since the
    element was created, and the result of the latest [create]. *)
Record session : Type := {
  element : GstDataRepoSrc;
  images : nat;
  images_ever : nat;
  last_flow : option GstFlowReturn
}.

Definition is_image (m : media_type) : bool :=
  match m with
  | _NNS_IMAGE => true
  | _ => false
  end.

Definition with_element (ses : session) (src : GstDataRepoSrc) : session :=
  {| element := src; images := images ses; images_ever := images_ever ses;
     last_flow := last_flow ses |}.

Definition unlink (w : World) (path : string) : World :=
  {| w_path := fun p => if String.eqb p path then inl ENOENT else w_path w p;
     w_fds := w_fds w; w_events := w_events w; w_trace := w_trace w |}.

Definition is_started (st : GstState) : bool :=
  match st with
  | GST_STATE_PAUSED | GST_STATE_PLAYING => true
  | _ => false
  end.

Section Host.

Variable MAX_ITEM : nat.
Variable g_strdup_printf : string -> Z -> string.

(** One call.  The base class starts an element that is stopped, asks for
    buffers only from a started one, and moves [GST_STATE] itself. *)
Definition host_step (c : host_call) (ses : session) (w : World)
  : option (session * World) :=
  let src := element ses in
  match c with
  | host_set_location l =>
      Some (with_element ses (gst_data_repo_src_set_property src l), w)
  | host_set_caps caps =>
      Some (with_element ses
              (snd (gst_data_repo_src_set_caps MAX_ITEM src caps)), w)
  | host_start =>
      if is_started (state src) then Some (ses, w)
      else
        let '(ok, src1, w1) := gst_data_repo_src_start g_strdup_printf src w in
        Some ({| element :=
                   if ok then set_state src1 GST_STATE_PAUSED
                   else set_state src1 GST_STATE_READY;
                 images := 0; images_ever := images_ever ses;
                 last_flow := None |}, w1)
  | host_create =>
      if is_started (state src) then
        match gst_data_repo_src_create g_strdup_printf src w with
        | None => None
        | Some (r, _, src1, w1) =>
            let n :=
              match r with
              | GST_FLOW_OK => if is_image (media src) then 1%nat else 0%nat
              | _ => 0%nat
              end in
            Some ({| element := src1;
                     images := (n + images ses)%nat;
                     images_ever := (n + images_ever ses)%nat;
                     last_flow := Some r |}, w1)
        end
      else Some (ses, w)
  | host_stop =>
      if is_started (state src) then
        let '(_, src1, w1) := gst_data_repo_src_stop src w in
        Some (with_element ses (set_state src1 GST_STATE_READY), w1)
      else Some (ses, w)
  | host_unlink path => Some (ses, unlink w path)
  end.

Fixpoint host_run (calls : list host_call) (ses : session) (w : World)
  : option (session * World) :=
  match calls with
  | [] => Some (ses, w)
  | c :: rest =>
      match host_step c ses w with
      | None => None
      | Some (ses1, w1) => host_run rest ses1 w1
      end
  end.

Definition new_session : session :=
  {| element := gst_data_repo_src_init MAX_ITEM; images := 0;
     images_ever := 0; last_flow := None |}.

End Host.

(** ** A formatter and small worlds for concrete runs *)

Definition decimal (n : Z) : string := NilZero.string_of_int (Z.to_int n).

Definition is_digit (c : ascii) : bool :=
  ((48 <=? nat_of_ascii c) && (nat_of_ascii c <=? 57))%nat.

Fixpoint read_width (s : string) (acc : nat) : nat * string :=
  match s with
  | String c rest =>
      if is_digit c
      then read_width rest (10 * acc + (nat_of_ascii c - 48))%nat
      else (acc, s)
  | EmptyString => (acc, s)
  end.

Fixpoint skip_long (s : string) : string :=
  match s with
  | String "l"%char rest => skip_long rest
  | _ => s
  end.

Fixpoint replicate (n : nat) (c : ascii) : string :=
  match n with
  | O => EmptyString
  | S n' => String c (replicate n' c)
  end.

Definition pad (zero : bool) (width : nat) (digits : string) : string :=
  let missing := (width - String.length digits)%nat in
  if zero then
    match digits with
    | String "-"%char d => String "-"%char (replicate missing "0"%char ++ d)
    | _ => replicate missing "0"%char ++ digits
    end
  else replicate missing " "%char ++ digits.

(** A conversion for one integer, after its percent sign: an optional
    zero flag, an optional width, any [l] modifiers, then [d] or [i]. *)
Definition conversion (s : string) (index : Z) : option (string * string) :=
  let '(zero, s1) :=
    match s with
    | String "0"%char r => (true, r)
    | _ => (false, s)
    end in
  let '(width, s2) := read_width s1 0 in
  match skip_long s2 with
  | String "d"%char r | String "i"%char r =>
      Some (pad zero width (decimal index), r)
  | _ => None
  end.

Fixpoint printf_loop (fuel : nat) (format : string) (arg : option Z) : string :=
  match fuel with
  | O => EmptyString
  | S fuel' =>
      match format with
      | EmptyString => EmptyString
      | String "%"%char (String "%"%char rest) =>
          String "%"%char (printf_loop fuel' rest arg)
      | String "%"%char rest =>
          match arg with
          | Some index =>
              match conversion rest index with
              | Some (text, rest') => text ++ printf_loop fuel' rest' None
              | None => String "%"%char (printf_loop fuel' rest arg)
              end
          | None => String "%"%char (printf_loop fuel' rest arg)
          end
      | String c rest => String c (printf_loop fuel' rest arg)
      end
  end.

(** [g_strdup_printf] on the formats a location pattern uses. *)
Definition printf_index (format : string) (index : Z) : string :=
  printf_loop (S (String.length format)) format (Some index).

Definition regular_file (data : list byte) : inode :=
  {| i_stat := Some S_IFREG; i_data := data |}.

(** A world whose only paths are those of [dir], nothing open, no
    interruptions pending. *)
Definition world_of (dir : list (string * inode)) : World :=
  {| w_path := fun p =>
       match find (fun e => String.eqb (fst e) p) dir with
       | Some e => inr (snd e)
       | None => inl ENOENT
       end;
     w_fds := []; w_events := []; w_trace := [] |}.

Definition bytes_of (s : string) : list byte := list_byte_of_string s.

(** ** Vocabulary of the statements *)

(** An interruption the loop retries, or a short count. *)
Definition transient (ev : read_event) : bool :=
  match ev with
  | ReadFails e => errno_retry e
  | ReadShort _ => true
  end.

(** Descriptor [d] is open on a file holding [data], its offset is [pos],
    and no [read] to come fails for good. *)
Definition reading (w : World) (d : Z) (data : list byte) (pos : Z) : Prop :=
  (exists st, lookup_fd d (w_fds w)
              = Some {| of_node := {| i_stat := st; i_data := data |};
                        of_pos := pos |})
  /\ forallb transient (w_events w) = true.

(** The element is as before but for its two byte counters. *)
Definition moved (src src' : GstDataRepoSrc) : Prop :=
  exists rp off, src' = set_offset (set_read_position src rp) off.

Definition size_of (data : list byte) : Z := Z.of_nat (length data).

(** A memory of [size] bytes filled with the [size] bytes at [pos]. *)
Definition full_record (size : Z) (data : list byte) (pos : Z) : GstBuffer :=
  [{| mem_size := size; mem_data := sub_bytes pos size data |}].

(** A memory of [size] bytes of which only the first ones were stored:
    what is left of [data] from [pos] on. *)
Definition tail_record (size : Z) (data : list byte) (pos : Z) : GstBuffer :=
  [{| mem_size := size; mem_data := skipn (Z.to_nat pos) data |}].

Definition fixed_size_kind (m : media_type) : bool :=
  match m with
  | _NNS_VIDEO | _NNS_AUDIO | _NNS_TEXT | _NNS_OCTET => true
  | _ => false
  end.

Definition completely_filled (m : GstMemory) : bool :=
  size_of (mem_data m) =? mem_size m.

(** The flag [successful_read] is set exactly when some image was read
    since the element was created. *)
Definition flag_counts_ever (ses : session) : Prop :=
  successful_read (element ses) = (0 <? images_ever ses)%nat.

(** ** Claims as the specification words them *)

(** Fixed-size kinds: a file whose length is not a multiple of the record
    size gives its full records and then end of stream, nothing else. *)
Definition trailing_bytes_are_discarded (fmt : string -> Z -> string) : Prop :=
  forall src w bytes calls,
    fixed_size_kind (media src) = true ->
    0 < media_size src < 2 ^ 32 ->
    reading w (fd src) bytes 0 ->
    size_of bytes mod media_size src <> 0 ->
    (Z.to_nat (size_of bytes / media_size src) + 2 <= calls)%nat ->
    stream (gst_data_repo_src_create fmt) calls src w
    = Some (map (fun i => full_record (media_size src) bytes
                            (Z.of_nat i * media_size src))
              (seq 0 (Z.to_nat (size_of bytes / media_size src))),
            Some GST_FLOW_EOS).

(** Tensor records: once the first segment is there and the second one
    meets the end of the file, at its start or part-way, the record is
    given up and the call signals end of stream. *)
Definition tensor_records_are_atomic (fmt : string -> Z -> string) : Prop :=
  forall src w bytes pos a b,
    media src = _NNS_TENSOR ->
    nth 0 (tensors_size src) 0 = a -> nth 1 (tensors_size src) 0 = b ->
    0 < a < 2 ^ 32 -> 0 < b < 2 ^ 32 ->
    reading w (fd src) bytes pos -> 0 <= pos ->
    a <= size_of bytes - pos < a + b ->
    exists src' w',
      gst_data_repo_src_create fmt src w = Some (GST_FLOW_EOS, None, src', w').

(** Tensor records: in a session whose descriptor [d] resolved to sizes
    (element [src1]), a successful read by an element [src] with these
    sizes has one memory per resolved segment size, in order. *)
Definition tensor_buffer_has_every_segment
    (MAX_ITEM : nat) (fmt : string -> Z -> string) : Prop :=
  forall src0 d src1 src w buf src' w',
    length (tensors_size src0) = MAX_ITEM ->
    (1 <= length d <= MAX_ITEM)%nat ->
    gst_data_repo_src_get_media_info MAX_ITEM src0 (other_tensors d)
    = (true, src1) ->
    media src = media src1 ->
    tensors_size src = tensors_size src1 ->
    gst_data_repo_src_create fmt src w = Some (GST_FLOW_OK, Some buf, src', w') ->
    map mem_size buf = firstn (length d) (tensors_size src).

(** Tensor resolution: too many components fail; otherwise there are as
    many positive sizes as components, and they add up to the declared
    size. *)
Definition tensor_resolution_as_specified (MAX_ITEM : nat) : Prop :=
  forall src d,
    length (tensors_size src) = MAX_ITEM ->
    ((MAX_ITEM < length d)%nat ->
     gst_tensors_config_from_structure MAX_ITEM d = inl TooManyComponents
     /\ fst (gst_data_repo_src_get_media_info MAX_ITEM src (other_tensors d))
        = false)
    /\ ((1 <= length d <= MAX_ITEM)%nat ->
        forallb shape_ok d = true ->
        exists src',
          gst_data_repo_src_get_media_info MAX_ITEM src (other_tensors d)
          = (true, src')
          /\ Forall (fun v => 0 < v) (firstn (length d) (tensors_size src'))
          /\ fold_right Z.add 0 (firstn (length d) (tensors_size src'))
             = declared_size d).

(** Images: with a stop index that is set, a read made once the frame
    index is past it signals end of stream, file or no file. *)
Definition stop_index_ends_stream (fmt : string -> Z -> string) : Prop :=
  forall src w,
    media src = _NNS_IMAGE ->
    0 <= stop_frame_index src ->
    stop_frame_index src < frame_index src ->
    exists src' w',
      gst_data_repo_src_create fmt src w = Some (GST_FLOW_EOS, None, src', w').

(** Images: when the file of the current frame cannot be read, the call
    signals end of stream if an image was read before in this session,
    and fails if this is the first read of the session. *)
Definition first_miss_of_session_fails
    (MAX_ITEM : nat) (fmt : string -> Z -> string) : Prop :=
  forall calls w0 ses w,
    host_run MAX_ITEM fmt calls (new_session MAX_ITEM) w0 = Some (ses, w) ->
    media (element ses) = _NNS_IMAGE ->
    fst (g_file_get_contents w
           (gst_data_repo_src_get_image_filename fmt (element ses))) = None ->
    exists src' w',
      gst_data_repo_src_create fmt (element ses) w
      = Some (if (0 <? images ses)%nat then GST_FLOW_EOS else GST_FLOW_ERROR,
              None, src', w').

(** ** Concrete elements and worlds *)

(** The session and the world after the pipeline made [calls] to a new
    element ([MAX_ITEM] being 16), in a world with the files of [dir]. *)
Definition after (calls : list host_call) (dir : list (string * inode))
  : session * World :=
  match host_run 16 printf_index calls (new_session 16) (world_of dir) with
  | Some r => r
  | None => (new_session 16, world_of dir)
  end.

(** What one more read makes of an element and a world. *)
Definition next (src : GstDataRepoSrc) (w : World) : GstDataRepoSrc * World :=
  match gst_data_repo_src_create printf_index src w with
  | Some (_, _, src', w') => (src', w')
  | None => (src, w)
  end.

Definition six_bytes : list byte := Eval vm_compute in bytes_of "abcdef".

(** Raw video with frames of four bytes, started on a file of six. *)
Definition video_calls : list host_call :=
  [host_set_location (Some "f.dat"%string); host_set_caps (video_x_raw 4);
   host_start].

Definition video_dir : list (string * inode) :=
  [("f.dat"%string, regular_file six_bytes)].

Definition video_src : GstDataRepoSrc :=
  Eval vm_compute in element (fst (after video_calls video_dir)).
Definition video_world : World :=
  Eval vm_compute in snd (after video_calls video_dir).

(** A tensor of [n] bytes. *)
Definition bytes_tensor (n : Z) : GstTensorInfo :=
  {| dimension := [n]; type := _NNS_UINT8 |}.

Definition tensor_calls (d : list GstTensorInfo) : list host_call :=
  [host_set_location (Some "f.dat"%string); host_set_caps (other_tensors d);
   host_start].

Definition file_dir (content : string) : list (string * inode) :=
  [("f.dat"%string, regular_file (bytes_of content))].

(** Segments of four and two bytes, on a file of five bytes. *)
Definition pair_42 : list GstTensorInfo := [bytes_tensor 4; bytes_tensor 2].
Definition five_bytes : list byte := Eval vm_compute in bytes_of "abcde".
Definition pair_src : GstDataRepoSrc :=
  Eval vm_compute in
    element (fst (after (tensor_calls pair_42) (file_dir "abcde"))).
Definition pair_world : World :=
  Eval vm_compute in snd (after (tensor_calls pair_42) (file_dir "abcde")).

(** Three segments of one byte, on a file of three bytes. *)
Definition triple_1 : list GstTensorInfo :=
  [bytes_tensor 1; bytes_tensor 1; bytes_tensor 1].
Definition triple_src : GstDataRepoSrc :=
  Eval vm_compute in
    element (fst (after (tensor_calls triple_1) (file_dir "abc"))).
Definition triple_world : World :=
  Eval vm_compute in snd (after (tensor_calls triple_1) (file_dir "abc")).
Definition triple_next : GstDataRepoSrc * World :=
  Eval vm_compute in next triple_src triple_world.

(** Two components of 2^31 bytes each. *)
Definition huge_pair : list GstTensorInfo :=
  [{| dimension := [32768; 65536]; type := _NNS_UINT8 |};
   {| dimension := [32768; 65536]; type := _NNS_UINT8 |}].

(** The element once its location is set, and once a descriptor is
    resolved. *)
Definition located_src : GstDataRepoSrc :=
  Eval vm_compute in
    gst_data_repo_src_set_property (gst_data_repo_src_init 16)
      (Some "f.dat"%string).

Definition resolved_pair : GstDataRepoSrc :=
  Eval vm_compute in
    snd (gst_data_repo_src_get_media_info 16 located_src (other_tensors pair_42)).

Definition resolved_triple : GstDataRepoSrc :=
  Eval vm_compute in
    snd (gst_data_repo_src_get_media_info 16 located_src (other_tensors triple_1)).

(** [pair_42] on a file of six bytes, one whole record. *)
Definition whole_src : GstDataRepoSrc :=
  Eval vm_compute in
    element (fst (after (tensor_calls pair_42) (file_dir "abcdef"))).
Definition whole_world : World :=
  Eval vm_compute in snd (after (tensor_calls pair_42) (file_dir "abcdef")).
Definition whole_next : GstDataRepoSrc * World :=
  Eval vm_compute in next whole_src whole_world.

(** Features of 784 and labels of 10 numbers of four bytes. *)
Definition features_labels : list GstTensorInfo :=
  [{| dimension := [1; 1; 784; 1]; type := _NNS_FLOAT32 |};
   {| dimension := [1; 1; 10; 1]; type := _NNS_FLOAT32 |}].

Definition seventeen : list GstTensorInfo :=
  Eval vm_compute in repeat (bytes_tensor 1) 17.

(** Eleven images, [img0.png] to [img10.png], and a pipeline reading them. *)
Definition image_dir : list (string * inode) :=
  Eval vm_compute in
    map (fun i => (printf_index "img%d.png" (Z.of_nat i),
                   regular_file (bytes_of "PNG")))
      (seq 0 11).

Definition png_bytes : list byte := Eval vm_compute in bytes_of "PNG".

Definition image_files : World := Eval vm_compute in world_of image_dir.

Definition image_calls : list host_call :=
  [host_set_location (Some "img%d.png"%string); host_set_caps image_any;
   host_start].

(** The session and the world after [n] reads. *)
Definition image_session (n : nat) : session * World :=
  after (image_calls ++ repeat host_create n) image_dir.

Definition image_session_0 : session * World :=
  Eval vm_compute in image_session 0.
Definition image_session_1 : session * World :=
  Eval vm_compute in image_session 1.
Definition image_session_3 : session * World :=
  Eval vm_compute in image_session 3.
Definition image_session_5 : session * World :=
  Eval vm_compute in image_session 5.
Definition image_session_12 : session * World :=
  Eval vm_compute in image_session 12.

(** Frame index 3 with the stop index at 2. *)
Definition stopped_at_2 : GstDataRepoSrc :=
  Eval vm_compute in set_stop_frame_index (element (fst image_session_3)) 2.

(** One image read, the pipeline stopped and started again, and the first
    image removed before the first read of the new session. *)
Definition restart_calls : list host_call :=
  image_calls
  ++ [host_create; host_stop; host_start; host_unlink "img0.png"%string].

Definition restarted : session * World :=
  Eval vm_compute in after restart_calls image_dir.

Definition restarted_read : session * World :=
  Eval vm_compute in after (restart_calls ++ [host_create]) image_dir.

(** A first session whose first image is removed after [start]. *)
Definition unlink_calls : list host_call :=
  image_calls ++ [host_unlink "img0.png"%string].

Definition unlinked : session * World :=
  Eval vm_compute in after unlink_calls image_dir.

(** A world where [f.dat] is a directory. *)
Definition directory_world : World :=
  Eval vm_compute in
    world_of [("f.dat"%string, {| i_stat := Some S_IFDIR; i_data := [] |})].

(** ** Vocabulary of the further properties *)



(** The buffer an image read returns for a file of content [c]. *)
Definition image_buffer (c : list byte) : GstBuffer :=
  [{| mem_size := size_of c; mem_data := c |}].

(** A whole tensor record of segments [a] and [b] at [pos]. *)
Definition tensor_record (a b : Z) (data : list byte) (pos : Z) : GstBuffer :=
  [{| mem_size := a; mem_data := sub_bytes pos a data |};
   {| mem_size := b; mem_data := sub_bytes (pos + a) b data |}].

(** A tensor record whose second segment got only what was left. *)
Definition tensor_tail_record (a b : Z) (data : list byte) (pos : Z) : GstBuffer :=
  [{| mem_size := a; mem_data := sub_bytes pos a data |};
   {| mem_size := b; mem_data := skipn (Z.to_nat (pos + a)) data |}].

(** Every pending event is an interruption the loop retries. *)
Definition interruption (ev : read_event) : bool :=
  match ev with
  | ReadFails e => errno_retry e
  | ReadShort _ => false
  end.

(** The same element but for the fields a call to [create] may write. *)
Definition same_configuration (src src' : GstDataRepoSrc) : Prop :=
  state src' = state src /\ filename src' = filename src
  /\ fd src' = fd src /\ media src' = media src
  /\ media_size src' = media_size src
  /\ tensors_size src' = tensors_size src
  /\ start_frame_index src' = start_frame_index src
  /\ stop_frame_index src' = stop_frame_index src.

Definition video_next : GstDataRepoSrc * World :=
  Eval vm_compute in next video_src video_world.

(** The video world with an interruption and then a lasting failure
    pending. *)
Definition failing_world : World :=
  Eval vm_compute in with_events video_world [ReadFails EINTR; ReadFails EIO].

(** An element whose descriptor is not open: [start] failed on a missing
    file. *)
Definition unopened_src : GstDataRepoSrc :=
  Eval vm_compute in
    snd (fst (gst_data_repo_src_start printf_index
                (set_media_size (set_media located_src _NNS_OCTET) 3176)
                (world_of []))).

(** The media type a caps name stands for. *)
Definition media_of_caps (caps : GstCaps) : option media_type :=
  match caps with
  | other_tensors _ => Some _NNS_TENSOR
  | video_x_raw _ => Some _NNS_VIDEO
  | audio_x_raw _ _ _ => Some _NNS_AUDIO
  | text_x_raw => Some _NNS_TEXT
  | application_octet_stream => Some _NNS_OCTET
  | image_any => Some _NNS_IMAGE
  | unknown_caps => None
  end.

(** Whether [GST_STATE] lets the location change. *)
Definition location_settable (st : GstState) : bool :=
  match st with
  | GST_STATE_READY | GST_STATE_NULL => true
  | _ => false
  end.

(** The file [start] opens: the pattern with the start index filled in
    for images, the file name itself otherwise. *)
Definition start_name (fmt : string -> Z -> string) (src : GstDataRepoSrc)
    (f : string) : string :=
  if is_image (media src) then fmt f (start_frame_index src) else f.

(** An element resolved for one byte tensor after [pair_42]. *)
Definition resolved_again : GstDataRepoSrc :=
  Eval vm_compute in
    snd (gst_data_repo_src_get_tensors_size 16 resolved_pair [bytes_tensor 7]).

(** A world with the images and with descriptor 0 open on the terminal. *)
Definition terminal_world : World :=
  Eval vm_compute in
    with_fds image_files
      [(0, {| of_node := {| i_stat := Some S_IFCHR; i_data := [] |};
              of_pos := 0 |})].

(** The element with the image pattern set and image caps resolved. *)
Definition image_ready_src : GstDataRepoSrc :=
  Eval vm_compute in
    snd (gst_data_repo_src_set_caps 16
           (gst_data_repo_src_set_property (gst_data_repo_src_init 16)
              (Some "img%d.png"%string))
           image_any).

(** The element with [f.dat] set and video caps resolved. *)
Definition video_ready_src : GstDataRepoSrc :=
  Eval vm_compute in
    snd (gst_data_repo_src_set_caps 16 located_src (video_x_raw 4)).

Definition video_files : World := Eval vm_compute in world_of video_dir.

(** Segments of four and two bytes on a file of fifteen: two records and
    three bytes over. *)
Definition fifteen_bytes : list byte := Eval vm_compute in bytes_of "abcdefghijklmno".
Definition fifteen_src : GstDataRepoSrc :=
  Eval vm_compute in
    element (fst (after (tensor_calls pair_42) (file_dir "abcdefghijklmno"))).
Definition fifteen_world : World :=
  Eval vm_compute in
    snd (after (tensor_calls pair_42) (file_dir "abcdefghijklmno")).

(** Three images of different content, and nothing at index 3. *)
Definition three_images : list (list byte) :=
  Eval vm_compute in [bytes_of "one"; bytes_of "two"; bytes_of "three"].

Definition three_files : World :=
  Eval vm_compute in
    world_of [("img0.png"%string, regular_file (bytes_of "one"));
              ("img1.png"%string, regular_file (bytes_of "two"));
              ("img2.png"%string, regular_file (bytes_of "three"))].

(** Whether a tensor read with segments of [a] and [b] bytes gives the
    record up when [rest] bytes are left: a segment that wants bytes
    finds none. *)
Definition tensor_gives_up (a b rest : Z) : bool :=
  ((0 <? a) && (Z.min a rest =? 0))
  || ((0 <? b) && (Z.min b (rest - Z.min a rest) =? 0)).

(** One tensor of four bytes, on a file of three. *)
Definition single_4 : list GstTensorInfo := [bytes_tensor 4].
Definition three_bytes : list byte := Eval vm_compute in bytes_of "abc".
Definition single_src : GstDataRepoSrc :=
  Eval vm_compute in
    element (fst (after (tensor_calls single_4) (file_dir "abc"))).
Definition single_world : World :=
  Eval vm_compute in snd (after (tensor_calls single_4) (file_dir "abc")).
Definition resolved_single : GstDataRepoSrc :=
  Eval vm_compute in
    snd (gst_data_repo_src_get_media_info 16 located_src (other_tensors single_4)).

(** Components of 2^31 and 2^31 + 1 bytes. *)
Definition wide_pair : list GstTensorInfo :=
  [{| dimension := [32768; 65536]; type := _NNS_UINT8 |};
   {| dimension := [2147483649]; type := _NNS_UINT8 |}].

(** ** The descriptor table *)

Lemma lookup_update_fd d f g t :
  lookup_fd d t = Some g -> lookup_fd d (update_fd d f t) = Some f.
Proof.
  induction t as [|[k h] t IH]; simpl; [discriminate|].
  destruct (k =? d) eqn:E; simpl; rewrite E; auto.
Qed.

Lemma fresh_fd_above t :
  forall e, In e t -> fst e < fresh_fd t.
Proof.
  unfold fresh_fd. induction t as [|x t IH]; cbn [fold_right In]; [tauto|].
  intros e [->|H]; [lia|]. specialize (IH e H). lia.
Qed.

Lemma remove_fd_absent d t :
  (forall e, In e t -> fst e < d) -> remove_fd d t = t.
Proof.
  induction t as [|[k h] t IH]; simpl; intros H; [reflexivity|].
  assert (k < d) by (apply (H (k, h)); auto).
  destruct (Z.eqb_spec k d); [lia|]. rewrite IH; auto.
Qed.

Lemma remove_fresh_fd f t :
  remove_fd (fresh_fd t) ((fresh_fd t, f) :: t) = t.
Proof.
  simpl. rewrite Z.eqb_refl. apply remove_fd_absent, fresh_fd_above.
Qed.

(** ** Slices of a file *)

Lemma sub_bytes_length pos n l :
  0 <= pos -> 0 <= n -> pos + n <= size_of l ->
  size_of (sub_bytes pos n l) = n.
Proof.
  unfold sub_bytes, size_of. intros.
  rewrite length_firstn, length_skipn. lia.
Qed.

Lemma firstn_app_skipn {A} (n m : nat) (r : list A) :
  firstn n r ++ firstn m (skipn n r) = firstn (n + m) r.
Proof.
  revert r. induction n as [|n IH]; intros r; [reflexivity|].
  destruct r as [|x r]; simpl; [now rewrite firstn_nil|].
  now rewrite IH.
Qed.

Lemma sub_bytes_app pos n m l :
  0 <= pos -> 0 <= n -> 0 <= m ->
  sub_bytes pos n l ++ sub_bytes (pos + n) m l = sub_bytes pos (n + m) l.
Proof.
  unfold sub_bytes. intros.
  rewrite !Z2Nat.inj_add by lia.
  rewrite (Nat.add_comm (Z.to_nat pos)), <- skipn_skipn.
  apply firstn_app_skipn.
Qed.

Lemma sub_bytes_all pos n l :
  0 <= pos -> size_of l - pos <= n ->
  sub_bytes pos n l = skipn (Z.to_nat pos) l.
Proof.
  unfold sub_bytes, size_of. intros.
  apply firstn_all2. rewrite length_skipn. lia.
Qed.

(** ** The read loop *)

Lemma moved_refl src : moved src src.
Proof. exists (read_position src), (offset src). now destruct src. Qed.

Lemma moved_trans a b c : moved a b -> moved b c -> moved a c.
Proof. intros (r1 & o1 & ->) (r2 & o2 & ->). now exists r2, o2. Qed.

Lemma moved_step src rp off :
  moved src (set_offset (set_read_position src rp) off).
Proof. now exists rp, off. Qed.

(** Whatever the world does, the loop touches only the byte counters. *)
Lemma read_loop_moved fuel :
  forall src w data b n e src' w' data',
    read_loop fuel src w data b n = Some (e, src', w', data') ->
    moved src src'.
Proof.
  induction fuel as [|fuel IH]; intros src w data b n e src' w' data';
    simpl; [discriminate|].
  destruct (0 <? n); [|intros [= <- <- <- <-]; apply moved_refl].
  destruct (read w (fd src) n) as [[err|bytes] w1].
  - destruct (errno_retry err); [apply IH|].
    intros [= <- <- <- <-]; apply moved_refl.
  - destruct (Z.of_nat (length bytes) =? 0).
    + destruct (0 <? b); intros [= <- <- <- <-]; apply moved_refl.
    + intros H. apply IH in H. eapply moved_trans; [apply moved_step|exact H].
Qed.

(** What one [read] can do to the loop, in any world. *)
Lemma read_any w d n r w1 :
  read w d n = (r, w1) ->
  match r with
  | inl e => errno_retry e = true -> S (length (w_events w1)) = length (w_events w)
  | inr bytes =>
      (length (w_events w1) <= length (w_events w))%nat
      /\ Z.of_nat (length bytes) <= Z.max 0 n
  end.
Proof.
  unfold read. destruct (lookup_fd d (w_fds w)) as [f|].
  2:{ intros [= <- <-]. discriminate. }
  assert (A : 0 <= available f n <= Z.max 0 n)
    by (unfold available, MAX_RW_COUNT; lia).
  destruct (w_events w) as [|[e|k] evs] eqn:E; intros [= <- <-]; simpl;
    rewrite ?E; simpl.
  - split; [lia|]. unfold sub_bytes. rewrite length_firstn. lia.
  - reflexivity.
  - split; [lia|]. unfold sub_bytes. rewrite length_firstn. lia.
Qed.

(** With fuel above the loop's measure, the loop comes to an end. *)
Lemma read_loop_total fuel :
  forall src w data b n,
    0 <= n ->
    (length (w_events w) + Z.to_nat n < fuel)%nat ->
    exists r, read_loop fuel src w data b n = Some r.
Proof.
  induction fuel as [|fuel IH]; intros src w data b n Hn Hf; [lia|].
  simpl. destruct (Z.ltb_spec 0 n); [|eauto].
  destruct (read w (fd src) n) as [[err|bytes] w1] eqn:R;
    apply read_any in R.
  - destruct (errno_retry err); [|eauto].
    apply IH; [lia|]. specialize (R eq_refl). lia.
  - destruct R as [R1 R2].
    destruct (Z.eqb_spec (Z.of_nat (length bytes)) 0).
    + destruct (0 <? b); eauto.
    + apply IH; unfold to_guint.
      * apply Z.mod_pos_bound. lia.
      * assert (0 <= (n - Z.of_nat (length bytes)) mod 2 ^ 32
                  <= n - Z.of_nat (length bytes))
          by (split; [apply Z.mod_pos_bound; lia | apply Z.mod_le; lia]).
        lia.
Qed.

(** One [read] on a file that is being read without lasting failures:
    either an interruption, or some bytes of the file at the offset. *)
Lemma read_reading w d n data pos :
  reading w d data pos -> 0 <= pos <= size_of data -> 0 < n ->
  (exists e w1,
      read w d n = (inl e, w1) /\ errno_retry e = true
      /\ reading w1 d data pos
      /\ S (length (w_events w1)) = length (w_events w))
  \/ (exists m w1,
      read w d n = (inr (sub_bytes pos m data), w1)
      /\ 0 <= m <= Z.min n (size_of data - pos)
      /\ (m = 0 -> size_of data - pos = 0)
      /\ reading w1 d data (pos + m)
      /\ (length (w_events w1) <= length (w_events w))%nat).
Proof.
  intros [[st Hl] Hev] Hpos Hn. unfold read. rewrite Hl.
  set (f := {| of_node := {| i_stat := st; i_data := data |}; of_pos := pos |}).
  assert (A : available f n = Z.min (Z.min n MAX_RW_COUNT) (size_of data - pos))
    by (unfold available, size_of, MAX_RW_COUNT in *; simpl; lia).
  destruct (w_events w) as [|[e|k] evs] eqn:E; simpl in Hev.
  - right. exists (available f n), (with_fds (log (call_read d n) w)
                 (update_fd d (advance f (available f n)) (w_fds w))).
    split; [reflexivity|]. unfold MAX_RW_COUNT in A.
    repeat split; try lia.
    + exists st. simpl. now apply lookup_update_fd with (g := f).
    + simpl. now rewrite E.
    + simpl. rewrite E. simpl. lia.
  - left. apply andb_prop in Hev as [He Hev].
    exists e, (with_events (log (call_read d n) w) evs).
    repeat split; auto. exists st. exact Hl.
  - right. exists (Z.min (Z.pos k) (available f n)),
      (with_fds (with_events (log (call_read d n) w) evs)
         (update_fd d (advance f (Z.min (Z.pos k) (available f n))) (w_fds w))).
    split; [reflexivity|]. unfold MAX_RW_COUNT in A.
    repeat split; try lia.
    + exists st. simpl. now apply lookup_update_fd with (g := f).
    + exact Hev.
    + simpl. lia.
Qed.

Lemma to_guint_small x : 0 <= x < 2 ^ 32 -> to_guint x = x.
Proof. intros. unfold to_guint. now apply Z.mod_small. Qed.

(** The loop on a file being read: it stores the next
    [min to_read (size - pos)] bytes of the file after [data], and leaves
    through [eos] exactly when it wanted bytes and neither had nor got
    any. *)
Lemma read_loop_reading fuel :
  forall src w data b n bytes pos,
    reading w (fd src) bytes pos ->
    0 <= pos <= size_of bytes ->
    0 <= n -> 0 <= b -> b + n < 2 ^ 32 ->
    (length (w_events w) + Z.to_nat n < fuel)%nat ->
    let k := Z.min n (size_of bytes - pos) in
    exists src' w',
      read_loop fuel src w data b n
      = Some (if (0 <? n) && (b + k =? 0) then goto_eos else loop_end,
              src', w', data ++ sub_bytes pos k bytes)
      /\ reading w' (fd src) bytes (pos + k)
      /\ moved src src'.
Proof.
  induction fuel as [|fuel IH]; intros src w data b n bytes pos Hr Hpos Hn Hb Hbn Hf k;
    [lia|].
  simpl. destruct (Z.ltb_spec 0 n) as [Hn0|Hn0].
  2:{ assert (k = 0) by lia. exists src, w. rewrite H. simpl.
      rewrite app_nil_r, Z.add_0_r. auto using moved_refl. }
  change (true && (b + k =? 0)) with (b + k =? 0).
  replace (b + k =? 0) with ((0 <? n) && (b + k =? 0))
    by (destruct (Z.ltb_spec 0 n); [reflexivity|lia]).
  destruct (read_reading w (fd src) n bytes pos Hr Hpos Hn0)
    as [(e & w1 & R & He & Hr1 & Hl)|(m & w1 & R & Hm & Hm0 & Hr1 & Hl)];
    rewrite R.
  - rewrite He. apply IH; auto. lia.
  - assert (Hlen : Z.of_nat (length (sub_bytes pos m bytes)) = m)
      by (apply sub_bytes_length; lia).
    rewrite Hlen.
    destruct (Z.eqb_spec m 0) as [->|Hne].
    + assert (Hk : k = 0) by lia. rewrite Hk, Z.add_0_r in *.
      exists src, w1. simpl. rewrite app_nil_r.
      replace (0 <? n) with true by (symmetry; apply Z.ltb_lt; lia). simpl.
      replace (b =? 0) with (negb (0 <? b))
        by (destruct (Z.ltb_spec 0 b), (Z.eqb_spec b 0); simpl; lia || reflexivity).
      destruct (0 <? b); simpl; rewrite Z.add_0_r; auto using moved_refl.
    + rewrite (to_guint_small (b + m)), (to_guint_small (n - m)) by lia.
      set (src1 := set_offset _ _).
      destruct (IH src1 w1 (data ++ sub_bytes pos m bytes) (b + m) (n - m)
                  bytes (pos + m))
        as (src' & w' & E & Hr' & Hm'); auto; try lia.
      exists src', w'. rewrite E. clear E.
      assert (Hk : m + Z.min (n - m) (size_of bytes - (pos + m)) = k) by lia.
      rewrite <- app_assoc, sub_bytes_app, Hk by lia.
      replace (pos + m + Z.min (n - m) (size_of bytes - (pos + m)))
        with (pos + k) in Hr' by lia.
      replace ((0 <? n - m)
               && (b + m + Z.min (n - m) (size_of bytes - (pos + m)) =? 0))
        with false
        by (symmetry; apply andb_false_intro2; apply Z.eqb_neq; lia).
      replace ((0 <? n) && (b + k =? 0)) with false
        by (symmetry; apply andb_false_intro2; apply Z.eqb_neq; lia).
      split; [reflexivity|]. split; [exact Hr'|].
      eapply moved_trans; [apply moved_step|exact Hm'].
Qed.

(** ** Records of a fixed size *)

Lemma moved_fields src src' :
  moved src src' ->
  fd src' = fd src /\ media src' = media src
  /\ media_size src' = media_size src
  /\ tensors_size src' = tensors_size src
  /\ successful_read src' = successful_read src
  /\ frame_index src' = frame_index src.
Proof. intros (rp & off & ->). simpl. tauto. Qed.

Lemma loop_fuel_enough w n :
  (length (w_events w) + Z.to_nat n < loop_fuel w n)%nat.
Proof. unfold loop_fuel. lia. Qed.

(** One call of [gst_data_repo_src_read_others] at offset [pos] of the
    file: end of stream when nothing is left, otherwise a buffer of
    [media_size] bytes holding the next [min media_size (size - pos)]. *)
Lemma read_others_reading src w bytes pos :
  reading w (fd src) bytes pos ->
  0 <= pos <= size_of bytes ->
  0 < media_size src < 2 ^ 32 ->
  let k := Z.min (media_size src) (size_of bytes - pos) in
  exists src' w',
    gst_data_repo_src_read_others src w
    = Some (if k =? 0 then GST_FLOW_EOS else GST_FLOW_OK,
            if k =? 0 then None
            else Some [{| mem_size := media_size src;
                          mem_data := sub_bytes pos k bytes |}],
            src', w')
    /\ reading w' (fd src) bytes (pos + k)
    /\ moved src src'.
Proof.
  intros Hr Hpos Hs k. unfold gst_data_repo_src_read_others.
  rewrite (to_guint_small (media_size src)) by lia.
  destruct (read_loop_reading (loop_fuel w (media_size src)) src w [] 0
              (media_size src) bytes pos)
    as (src' & w' & E & Hr' & Hm); auto using loop_fuel_enough; try lia.
  rewrite E. fold k in Hr' |- *. exists src', w'.
  replace (0 <? media_size src) with true by (symmetry; apply Z.ltb_lt; lia).
  simpl. destruct (k =? 0); auto.
Qed.

Lemma create_fixed_size fmt src w :
  fixed_size_kind (media src) = true ->
  gst_data_repo_src_create fmt src w = gst_data_repo_src_read_others src w.
Proof.
  unfold gst_data_repo_src_create. now destruct (media src).
Qed.

(** The whole stream from offset [pos], when [q] full records and [r]
    more bytes are left. *)
Lemma stream_fixed_size fmt bytes (q : nat) :
  forall src w pos r calls,
    fixed_size_kind (media src) = true ->
    0 < media_size src < 2 ^ 32 ->
    reading w (fd src) bytes pos ->
    0 <= pos ->
    size_of bytes - pos = Z.of_nat q * media_size src + r ->
    0 <= r < media_size src ->
    (q + 2 <= calls)%nat ->
    stream (gst_data_repo_src_create fmt) calls src w
    = Some (map (fun i => full_record (media_size src) bytes
                            (pos + Z.of_nat i * media_size src)) (seq 0 q)
            ++ (if r =? 0 then []
                else [tail_record (media_size src) bytes
                        (pos + Z.of_nat q * media_size src)]),
            Some GST_FLOW_EOS).
Proof.
  induction q as [|q IH]; intros src w pos r calls Hk Hs Hr Hpos Hsz Hrr Hc.
  - destruct calls as [|calls]; [lia|]. simpl stream.
    rewrite create_fixed_size by assumption.
    destruct (read_others_reading src w bytes pos)
      as (src1 & w1 & E & Hr1 & Hm1); auto; [lia|].
    rewrite E. clear E.
    replace (Z.min (media_size src) (size_of bytes - pos)) with r in * by lia.
    destruct (Z.eqb_spec r 0) as [->|Hne]; [reflexivity|].
    destruct calls as [|calls]; [lia|]. simpl stream.
    destruct (moved_fields _ _ Hm1) as (Hfd & Hme & Hms & _).
    rewrite create_fixed_size by congruence.
    rewrite <- Hfd in Hr1.
    destruct (read_others_reading src1 w1 bytes (pos + r))
      as (src2 & w2 & E & _ & _); auto; try lia.
    rewrite E. clear E.
    replace (Z.min (media_size src1) (size_of bytes - (pos + r))) with 0 by lia.
    simpl. unfold tail_record.
    rewrite sub_bytes_all, Z.add_0_r by lia. reflexivity.
  - destruct calls as [|calls]; [lia|]. simpl stream.
    rewrite create_fixed_size by assumption.
    destruct (read_others_reading src w bytes pos)
      as (src1 & w1 & E & Hr1 & Hm1); auto; [lia|].
    rewrite E. clear E.
    replace (Z.min (media_size src) (size_of bytes - pos))
      with (media_size src) in * by nia.
    destruct (Z.eqb_spec (media_size src) 0) as [?|_]; [lia|].
    destruct (moved_fields _ _ Hm1) as (Hfd & Hme & Hms & _).
    rewrite <- Hfd in Hr1.
    rewrite (IH src1 w1 (pos + media_size src) r calls);
      try congruence; try lia.
    rewrite Hms. cbn [seq map app]. rewrite <- seq_shift, map_map.
    rewrite Z.add_0_r. do 3 f_equal. f_equal.
    + apply map_ext. intros i. f_equal. lia.
    + destruct (r =? 0); [reflexivity|]. do 2 f_equal. lia.
Qed.

(** C1, as amended.  For the kinds with one fixed-size segment, a file of
    any length gives its [size / media_size] full records; when bytes are
    left over, one more buffer of [media_size] bytes follows in which only
    those left-over bytes were stored; then end of stream. *)
Theorem fixed_size_stream_delivers_tail
    (fmt : string -> Z -> string) (src : GstDataRepoSrc) (w : World)
    (bytes : list byte) (calls : nat) :
  fixed_size_kind (media src) = true ->
  0 < media_size src < 2 ^ 32 ->
  reading w (fd src) bytes 0 ->
  (Z.to_nat (size_of bytes / media_size src) + 2 <= calls)%nat ->
  stream (gst_data_repo_src_create fmt) calls src w
  = Some (map (fun i => full_record (media_size src) bytes
                          (Z.of_nat i * media_size src))
            (seq 0 (Z.to_nat (size_of bytes / media_size src)))
          ++ (if size_of bytes mod media_size src =? 0 then []
              else [tail_record (media_size src) bytes
                      (size_of bytes / media_size src * media_size src)]),
          Some GST_FLOW_EOS).
Proof.
  intros Hk Hs Hr Hc.
  assert (Hq : 0 <= size_of bytes / media_size src)
    by (apply Z.div_pos; unfold size_of; lia).
  pose proof (Z.div_mod (size_of bytes) (media_size src) ltac:(lia)) as Hdm.
  pose proof (Z.mod_pos_bound (size_of bytes) (media_size src) ltac:(lia)) as Hmb.
  rewrite (stream_fixed_size fmt bytes
             (Z.to_nat (size_of bytes / media_size src)) src w 0
             (size_of bytes mod media_size src) calls);
    auto; try lia.
  rewrite Z2Nat.id by lia. reflexivity.
Qed.

Lemma video_world_reading : reading video_world (fd video_src) six_bytes 0.
Proof. split; [exists (Some S_IFREG)|]; reflexivity. Qed.

Lemma fixed_size_stream_delivers_tail_witness :
  stream (gst_data_repo_src_create printf_index) 3 video_src video_world
  = Some ([full_record 4 six_bytes 0; tail_record 4 six_bytes 4],
          Some GST_FLOW_EOS).
Proof.
  apply (fixed_size_stream_delivers_tail printf_index video_src video_world
           six_bytes 3).
  - reflexivity.
  - vm_compute. split; reflexivity.
  - exact video_world_reading.
  - vm_compute. lia.
Defined.

(** C1, as worded, fails: of six bytes read in records of four, the last
    two come out in a second buffer before end of stream. *)
Lemma trailing_bytes_counterexample :
  stream (gst_data_repo_src_create printf_index) 3 video_src video_world
  = Some ([[{| mem_size := 4; mem_data := bytes_of "abcd" |}];
           [{| mem_size := 4; mem_data := bytes_of "ef" |}]],
          Some GST_FLOW_EOS)
  /\ ~ trailing_bytes_are_discarded printf_index.
Proof.
  split; [reflexivity|].
  intros H.
  specialize (H video_src video_world six_bytes 3%nat eq_refl).
  assert (A : stream (gst_data_repo_src_create printf_index) 3 video_src video_world
              = Some ([[{| mem_size := 4; mem_data := bytes_of "abcd" |}];
                       [{| mem_size := 4; mem_data := bytes_of "ef" |}]],
                      Some GST_FLOW_EOS)) by reflexivity.
  rewrite A in H. clear A.
  assert (B : Some ([[{| mem_size := 4; mem_data := bytes_of "abcd" |}];
                     [{| mem_size := 4; mem_data := bytes_of "ef" |}]],
                    Some GST_FLOW_EOS)
              = Some (map (fun i => full_record (media_size video_src) six_bytes
                                      (Z.of_nat i * media_size video_src))
                        (seq 0 (Z.to_nat (size_of six_bytes / media_size video_src))),
                      Some GST_FLOW_EOS)).
  { apply H.
    - vm_compute. split; reflexivity.
    - exact video_world_reading.
    - vm_compute. discriminate.
    - vm_compute. lia. }
  vm_compute in B. discriminate B.
Qed.

(** ** Tensor records *)

Lemma to_guint_range x : 0 <= to_guint x < 2 ^ 32.
Proof. unfold to_guint. apply Z.mod_pos_bound. lia. Qed.

(** In any world, a call that succeeds went twice round the [for] loop:
    the buffer has the memories of [tensors_size[0]] and
    [tensors_size[1]], whatever the number of resolved sizes. *)
Lemma read_tensors_two_segments src w buf src' w' :
  gst_data_repo_src_read_tensors src w = Some (GST_FLOW_OK, Some buf, src', w') ->
  map mem_size buf = [nth 0 (tensors_size src) 0; nth 1 (tensors_size src) 0].
Proof.
  unfold gst_data_repo_src_read_tensors. cbn [seq read_tensors_for].
  destruct (read_loop _ src w [] 0 _) as [[[[e0 src0] w0] d0]|] eqn:E0;
    [|discriminate].
  apply read_loop_moved, moved_fields in E0 as (_ & _ & _ & Ht & _).
  destruct e0; try discriminate.
  destruct (read_loop _ src0 w0 [] 0 _) as [[[[e1 src1] w1] d1]|] eqn:E1;
    [|discriminate].
  destruct e1; try discriminate.
  intros [= <- _ _]. simpl. now rewrite Ht.
Qed.

(** One call of [gst_data_repo_src_read_tensors] at offset [pos] of the
    file, for segments of [a] and [b] bytes. *)
Lemma read_tensors_reading src w bytes pos a b :
  nth 0 (tensors_size src) 0 = a -> nth 1 (tensors_size src) 0 = b ->
  0 < a < 2 ^ 32 -> 0 < b < 2 ^ 32 ->
  reading w (fd src) bytes pos -> 0 <= pos <= size_of bytes ->
  let rest := size_of bytes - pos in
  exists src' w',
    gst_data_repo_src_read_tensors src w
    = Some (if rest <=? a then GST_FLOW_EOS else GST_FLOW_OK,
            if rest <=? a then None
            else Some [{| mem_size := a; mem_data := sub_bytes pos a bytes |};
                       {| mem_size := b;
                          mem_data := sub_bytes (pos + a) (Z.min b (rest - a)) bytes |}],
            src', w').
Proof.
  intros Ha Hb Har Hbr Hr Hpos rest.
  unfold gst_data_repo_src_read_tensors. cbn [seq read_tensors_for].
  rewrite Ha, (to_guint_small a) by lia.
  destruct (read_loop_reading (loop_fuel w a) src w [] 0 a bytes pos)
    as (src1 & w1 & E & Hr1 & Hm1); auto using loop_fuel_enough; try lia.
  rewrite E. clear E. fold rest in Hr1 |- *.
  replace (0 <? a) with true by (symmetry; apply Z.ltb_lt; lia).
  cbn [andb Z.add app].
  destruct (Z.eqb_spec (Z.min a rest) 0) as [H0|H0].
  { replace (rest <=? a) with true by (symmetry; apply Z.leb_le; lia). eauto. }
  destruct (moved_fields _ _ Hm1) as (Hfd & _ & _ & Hts & _).
  rewrite Hts, Hb, (to_guint_small b) by lia.
  rewrite <- Hfd in Hr1.
  destruct (read_loop_reading (loop_fuel w1 b) src1 w1 [] 0 b bytes
              (pos + Z.min a rest))
    as (src2 & w2 & E & Hr2 & Hm2); auto using loop_fuel_enough;
    try (unfold rest in *; lia).
  rewrite E. clear E.
  replace (0 <? b) with true by (symmetry; apply Z.ltb_lt; lia).
  cbn [andb Z.add app].
  destruct (Z.leb_spec rest a) as [Hle|Hgt].
  - replace (Z.min b (size_of bytes - (pos + Z.min a rest)) =? 0) with true
      by (symmetry; apply Z.eqb_eq; unfold rest in *; lia).
    eauto.
  - replace (Z.min b (size_of bytes - (pos + Z.min a rest)) =? 0) with false
      by (symmetry; apply Z.eqb_neq; unfold rest in *; lia).
    replace (Z.min a rest) with a by lia.
    replace (size_of bytes - (pos + a)) with (rest - a) by (unfold rest; lia).
    eauto.
Qed.

(** C2, as amended.  With the first segment of a tensor record complete:
    when the file ends exactly where the second segment starts, the record
    is given up and the call signals end of stream without a buffer; when
    the file ends inside the second segment, the call succeeds, and the
    second memory of the buffer holds only the bytes that were left. *)
Theorem tensor_second_segment_at_end
    (fmt : string -> Z -> string) (src : GstDataRepoSrc) (w : World)
    (bytes : list byte) (pos a b : Z) :
  media src = _NNS_TENSOR ->
  nth 0 (tensors_size src) 0 = a -> nth 1 (tensors_size src) 0 = b ->
  0 < a < 2 ^ 32 -> 0 < b < 2 ^ 32 ->
  reading w (fd src) bytes pos -> 0 <= pos ->
  a <= size_of bytes - pos < a + b ->
  exists src' w',
    gst_data_repo_src_create fmt src w
    = Some (if size_of bytes - pos =? a then GST_FLOW_EOS else GST_FLOW_OK,
            if size_of bytes - pos =? a then None
            else Some [{| mem_size := a; mem_data := sub_bytes pos a bytes |};
                       {| mem_size := b;
                          mem_data := skipn (Z.to_nat (pos + a)) bytes |}],
            src', w').
Proof.
  intros Hm Ha Hb Har Hbr Hr Hpos Hrest.
  unfold gst_data_repo_src_create. rewrite Hm.
  destruct (read_tensors_reading src w bytes pos a b)
    as (src' & w' & E); auto; try lia.
  exists src', w'. rewrite E.
  destruct (Z.eqb_spec (size_of bytes - pos) a) as [Heq|Hne].
  - now replace (size_of bytes - pos <=? a) with true
      by (symmetry; apply Z.leb_le; lia).
  - replace (size_of bytes - pos <=? a) with false
      by (symmetry; apply Z.leb_gt; lia).
    now rewrite (sub_bytes_all (pos + a)) by lia.
Qed.

Lemma pair_world_reading : reading pair_world (fd pair_src) five_bytes 0.
Proof. split; [exists (Some S_IFREG)|]; reflexivity. Qed.

Lemma tensor_second_segment_at_end_witness :
  exists src' w',
    gst_data_repo_src_create printf_index pair_src pair_world
    = Some (GST_FLOW_OK,
            Some [{| mem_size := 4; mem_data := bytes_of "abcd" |};
                  {| mem_size := 2; mem_data := bytes_of "e" |}],
            src', w').
Proof.
  apply (tensor_second_segment_at_end printf_index pair_src pair_world
           five_bytes 0 4 2).
  - reflexivity.
  - reflexivity.
  - reflexivity.
  - vm_compute. split; reflexivity.
  - vm_compute. split; reflexivity.
  - exact pair_world_reading.
  - lia.
  - vm_compute. split; [discriminate|reflexivity].
Defined.

(** C2, as worded, fails: with segments of four and two bytes and five
    bytes in the file, the call succeeds, and its second memory has one
    byte of its two. *)
Lemma tensor_atomicity_counterexample :
  (exists src' w',
      gst_data_repo_src_create printf_index pair_src pair_world
      = Some (GST_FLOW_OK,
              Some [{| mem_size := 4; mem_data := bytes_of "abcd" |};
                    {| mem_size := 2; mem_data := bytes_of "e" |}],
              src', w'))
  /\ ~ tensor_records_are_atomic printf_index.
Proof.
  split; [eexists; eexists; reflexivity|].
  intros H.
  destruct (H pair_src pair_world five_bytes 0 4 2)
    as (src' & w' & E).
  - reflexivity.
  - reflexivity.
  - reflexivity.
  - vm_compute. split; reflexivity.
  - vm_compute. split; reflexivity.
  - exact pair_world_reading.
  - lia.
  - vm_compute. split; [discriminate|reflexivity].
  - vm_compute in E. discriminate E.
Qed.

(** ** Resolving a tensors descriptor *)

Lemma array_set_length a : forall i v, length (array_set a i v) = length a.
Proof.
  induction a as [|x a IH]; intros [|i] v; simpl; auto.
Qed.

Lemma array_set_firstn a :
  forall i v, (i < length a)%nat ->
    firstn (S i) (array_set a i v) = firstn i a ++ [v].
Proof.
  induction a as [|x a IH]; intros [|i] v H; simpl in *; try lia.
  - reflexivity.
  - f_equal. apply IH. lia.
Qed.

Lemma array_set_skipn a :
  forall i j v, (i < j)%nat -> skipn j (array_set a i v) = skipn j a.
Proof.
  induction a as [|x a IH]; intros [|i] [|j] v H; simpl in *;
    try lia; try reflexivity.
  apply IH. lia.
Qed.

Lemma product_positive d :
  forallb (fun x => 0 <? x) d = true -> 0 < fold_right Z.mul 1 d.
Proof.
  induction d as [|x d IH]; simpl; [lia|].
  intros H. apply andb_prop in H as [Hx Hd].
  apply Z.ltb_lt in Hx. specialize (IH Hd). nia.
Qed.

Lemma shape_ok_size i : shape_ok i = true -> 0 < gst_tensor_info_get_size i.
Proof.
  unfold shape_ok, gst_tensor_info_get_size. intros H.
  assert (0 < fold_right Z.mul 1 (dimension i))
    by (apply product_positive; destruct (dimension i); [discriminate|exact H]).
  assert (0 < element_size (type i)) by (destruct (type i); simpl; lia).
  nia.
Qed.

Lemma declared_size_nonneg d :
  forallb shape_ok d = true -> 0 <= declared_size d.
Proof.
  induction d as [|x d IH]; simpl; [lia|].
  intros H. apply andb_prop in H as [Hx Hd].
  apply shape_ok_size in Hx. specialize (IH Hd). lia.
Qed.

Lemma declared_size_sum d :
  fold_right Z.add 0 (map gst_tensor_info_get_size d) = declared_size d.
Proof. induction d as [|x d IH]; simpl; [reflexivity|]. now rewrite IH. Qed.

(** The loop stores the components' sizes from index [i] on and adds them
    up, as long as the total stays below 2^32. *)
Lemma tensors_size_loop_spec info :
  forall i sizes size,
    (i + length info <= length sizes)%nat ->
    forallb shape_ok info = true ->
    0 <= size -> size + declared_size info < 2 ^ 32 ->
    tensors_size_loop i info sizes size
    = (firstn i sizes ++ map gst_tensor_info_get_size info
         ++ skipn (i + length info) sizes,
       size + declared_size info).
Proof.
  induction info as [|x info IH]; intros i sizes size Hlen Hok Hs Hb; simpl.
  - rewrite Nat.add_0_r, firstn_skipn, Z.add_0_r. reflexivity.
  - simpl in *. apply andb_prop in Hok as [Hx Hok].
    pose proof (shape_ok_size x Hx). pose proof (declared_size_nonneg info Hok).
    rewrite (to_guint_small (gst_tensor_info_get_size x)) by lia.
    rewrite (to_guint_small (size + gst_tensor_info_get_size x)) by lia.
    rewrite IH; try lia; auto.
    2:{ rewrite array_set_length. lia. }
    rewrite array_set_firstn by lia.
    rewrite array_set_skipn by lia.
    rewrite <- app_assoc. cbn [app].
    replace (i + S (length info))%nat with (S i + length info)%nat by lia.
    f_equal. lia.
Qed.

Lemma resolved_sizes src d :
  (length d <= length (tensors_size src))%nat ->
  forallb shape_ok d = true ->
  declared_size d < 2 ^ 32 ->
  tensors_size_loop 0 d (tensors_size src) 0
  = (map gst_tensor_info_get_size d ++ skipn (length d) (tensors_size src),
     declared_size d).
Proof.
  intros. rewrite tensors_size_loop_spec; auto; lia.
Qed.

Lemma to_guint_add_l x y : to_guint (to_guint x + y) = to_guint (x + y).
Proof. unfold to_guint. apply Z.add_mod_idemp_l. lia. Qed.

(** The loop when every component fits 32 bits: the sizes are stored as
    they are, and the running total is the sum modulo 2^32. *)
Lemma tensors_size_loop_wrap info :
  forall i sizes size,
    (i + length info <= length sizes)%nat ->
    forallb shape_ok info = true ->
    Forall (fun x => gst_tensor_info_get_size x < 2 ^ 32) info ->
    tensors_size_loop i info sizes (to_guint size)
    = (firstn i sizes ++ map gst_tensor_info_get_size info
         ++ skipn (i + length info) sizes,
       to_guint (size + declared_size info)).
Proof.
  induction info as [|x info IH]; intros i sizes size Hlen Hok Hfit; simpl.
  - rewrite Nat.add_0_r, firstn_skipn, Z.add_0_r. reflexivity.
  - simpl in Hlen, Hok. apply andb_prop in Hok as [Hx Hok].
    inversion Hfit as [|? ? Hx32 Hfit']; subst.
    pose proof (shape_ok_size x Hx).
    rewrite (to_guint_small (gst_tensor_info_get_size x)) by lia.
    rewrite to_guint_add_l, IH; auto.
    2:{ rewrite array_set_length. lia. }
    rewrite array_set_firstn by lia.
    rewrite array_set_skipn by lia.
    rewrite <- app_assoc. cbn [app].
    replace (i + S (length info))%nat with (S i + length info)%nat by lia.
    f_equal. f_equal. lia.
Qed.

(** C5.  What the code does where the claim expects a resolution.  For a
    descriptor of 1 to [MAX_ITEM] well-formed components, each of a size
    below 2^32, the sizes stored are as the claim says: one positive size
    per component, in order, adding up to the declared size.  But the
    total is added up in a [guint]: the descriptor is accepted only if
    the declared size modulo 2^32 is not zero, and that residue becomes
    the record size.  A declared size that is a multiple of 2^32 is
    refused. *)
Theorem tensor_resolution_wraps_total
    (MAX_ITEM : nat) (src : GstDataRepoSrc) (d : list GstTensorInfo) :
  length (tensors_size src) = MAX_ITEM ->
  (1 <= length d <= MAX_ITEM)%nat ->
  forallb shape_ok d = true ->
  Forall (fun x => gst_tensor_info_get_size x < 2 ^ 32) d ->
  let r := gst_data_repo_src_get_media_info MAX_ITEM src (other_tensors d) in
  firstn (length d) (tensors_size (snd r)) = map gst_tensor_info_get_size d
  /\ Forall (fun v => 0 < v) (firstn (length d) (tensors_size (snd r)))
  /\ fold_right Z.add 0 (firstn (length d) (tensors_size (snd r)))
     = declared_size d
  /\ fst r = negb (to_guint (declared_size d) =? 0)
  /\ (fst r = true -> media_size (snd r) = to_guint (declared_size d)).
Proof.
  intros Hlen [H1 HM] Hok Hfit r.
  assert (Hr : r = (negb (to_guint (declared_size d) =? 0),
                    if to_guint (declared_size d) =? 0
                    then set_media
                           (set_tensors_size src
                              (map gst_tensor_info_get_size d
                                 ++ skipn (length d) (tensors_size src)))
                           _NNS_TENSOR
                    else set_media_size
                           (set_media
                              (set_tensors_size src
                                 (map gst_tensor_info_get_size d
                                    ++ skipn (length d) (tensors_size src)))
                              _NNS_TENSOR)
                           (to_guint (declared_size d)))).
  { unfold r, gst_data_repo_src_get_media_info,
      gst_data_repo_src_get_tensors_size, gst_tensors_config_from_structure.
    replace (MAX_ITEM <? length d)%nat with false
      by (symmetry; apply Nat.ltb_ge; exact HM).
    rewrite Hok.
    change 0 with (to_guint 0) at 1.
    rewrite tensors_size_loop_wrap by (auto; lia).
    cbn [firstn app Nat.add Z.add].
    now destruct (to_guint (declared_size d) =? 0). }
  assert (Hf : firstn (length d)
                 (map gst_tensor_info_get_size d
                    ++ skipn (length d) (tensors_size src))
               = map gst_tensor_info_get_size d).
  { rewrite <- (length_map gst_tensor_info_get_size d) at 1.
    rewrite firstn_app, firstn_all, Nat.sub_diag. simpl. apply app_nil_r. }
  assert (Hts : tensors_size (snd r)
                = map gst_tensor_info_get_size d
                    ++ skipn (length d) (tensors_size src)).
  { rewrite Hr. simpl. now destruct (to_guint (declared_size d) =? 0). }
  rewrite Hts, Hf.
  split; [reflexivity|]. split; [|split; [apply declared_size_sum|]].
  - apply Forall_forall. intros v Hv. apply in_map_iff in Hv as (x & <- & Hx).
    apply shape_ok_size. rewrite forallb_forall in Hok. auto.
  - rewrite Hr. simpl. split; [reflexivity|].
    destruct (to_guint (declared_size d) =? 0); [discriminate|reflexivity].
Qed.

(** Two components of 2^31 bytes: sizes stored, resolution refused.
    Components of 2^31 and 2^31 + 1 bytes: accepted, with a record size
    of one byte. *)
Lemma tensor_resolution_wraps_total_witness :
  (declared_size huge_pair = 2 ^ 32
   /\ firstn 2 (tensors_size
                  (snd (gst_data_repo_src_get_media_info 16
                          (gst_data_repo_src_init 16) (other_tensors huge_pair))))
      = [2 ^ 31; 2 ^ 31]
   /\ fst (gst_data_repo_src_get_media_info 16 (gst_data_repo_src_init 16)
             (other_tensors huge_pair)) = false)
  /\ (declared_size wide_pair = 2 ^ 32 + 1
      /\ fst (gst_data_repo_src_get_media_info 16 (gst_data_repo_src_init 16)
                (other_tensors wide_pair)) = true
      /\ media_size
           (snd (gst_data_repo_src_get_media_info 16 (gst_data_repo_src_init 16)
                   (other_tensors wide_pair))) = 1).
Proof.
  assert (F : forall d, forallb (fun x => gst_tensor_info_get_size x <? 2 ^ 32) d
                        = true ->
                        Forall (fun x => gst_tensor_info_get_size x < 2 ^ 32) d).
  { intros d H. apply Forall_forall. intros x Hx.
    rewrite forallb_forall in H. now apply Z.ltb_lt, H. }
  split.
  - destruct (tensor_resolution_wraps_total 16 (gst_data_repo_src_init 16)
                huge_pair eq_refl)
      as (Hs & _ & _ & Hr & _).
    + split; apply Nat.leb_le; reflexivity.
    + reflexivity.
    + apply F. reflexivity.
    + split; [reflexivity|]. split; [exact Hs|exact Hr].
  - destruct (tensor_resolution_wraps_total 16 (gst_data_repo_src_init 16)
                wide_pair eq_refl)
      as (_ & _ & _ & Hr & Hm).
    + split; apply Nat.leb_le; reflexivity.
    + reflexivity.
    + apply F. reflexivity.
    + split; [reflexivity|]. split; [exact Hr|]. exact (Hm Hr).
Defined.

(** C5: the claim, put to the code, fails at two components of 2^31 bytes
    each: they are within [MAX_ITEM] and well formed, their sum wraps to
    zero in the [guint] total, and resolution is refused. *)
Lemma tensor_resolution_counterexample :
  fst (gst_data_repo_src_get_media_info 16 (gst_data_repo_src_init 16)
         (other_tensors huge_pair)) = false
  /\ ~ tensor_resolution_as_specified 16.
Proof.
  split; [reflexivity|].
  intros H.
  destruct (H (gst_data_repo_src_init 16) huge_pair eq_refl) as [_ H2].
  destruct H2 as (src' & E & _).
  - vm_compute. lia.
  - reflexivity.
  - apply (f_equal fst) in E. vm_compute in E. discriminate E.
Qed.

(** What a successful resolution of a tensors descriptor means. *)
Lemma get_media_info_tensors MAX_ITEM src0 d src1 :
  gst_data_repo_src_get_media_info MAX_ITEM src0 (other_tensors d) = (true, src1) ->
  (length d <= MAX_ITEM)%nat
  /\ forallb shape_ok d = true
  /\ media src1 = _NNS_TENSOR
  /\ tensors_size src1 = fst (tensors_size_loop 0 d (tensors_size src0) 0).
Proof.
  unfold gst_data_repo_src_get_media_info, gst_data_repo_src_get_tensors_size,
    gst_tensors_config_from_structure.
  destruct (Nat.ltb_spec MAX_ITEM (length d)); [discriminate|].
  destruct (forallb shape_ok d); [|discriminate].
  destruct (tensors_size_loop 0 d (tensors_size src0) 0) as [sizes size].
  destruct (size =? 0); [discriminate|].
  intros [= <-]. simpl. auto.
Qed.

Lemma to_guint64_add_l x y :
  to_guint64 (to_guint64 x + y) = to_guint64 (x + y).
Proof. unfold to_guint64. apply Z.add_mod_idemp_l. lia. Qed.

(** In any world, the loop appends to [data] at most [to_read] bytes, and
    both byte counters advance, modulo 2^64, by what it appended. *)
Lemma read_loop_stores fuel :
  forall src w data b n e src' w' data',
    0 <= n ->
    read_loop fuel src w data b n = Some (e, src', w', data') ->
    exists added,
      data' = data ++ added
      /\ size_of added <= n
      /\ to_guint64 (offset src') = to_guint64 (offset src + size_of added)
      /\ to_guint64 (read_position src')
         = to_guint64 (read_position src + size_of added).
Proof.
  assert (Nil : forall src data n, 0 <= n ->
            exists added : list byte,
              data = data ++ added /\ size_of added <= n
              /\ to_guint64 (offset src) = to_guint64 (offset src + size_of added)
              /\ to_guint64 (read_position src)
                 = to_guint64 (read_position src + size_of added)).
  { intros src data n Hn. exists []. unfold size_of. simpl.
    rewrite app_nil_r, !Z.add_0_r. auto. }
  induction fuel as [|fuel IH]; intros src w data b n e src' w' data' Hn;
    simpl; [discriminate|].
  destruct (Z.ltb_spec 0 n); [|intros [= <- <- <- <-]; auto].
  destruct (read w (fd src) n) as [[err|bytes] w1] eqn:R.
  - destruct (errno_retry err); [apply IH; lia|].
    intros [= <- <- <- <-]; auto.
  - apply read_any in R as [_ Hret].
    destruct (Z.eqb_spec (Z.of_nat (length bytes)) 0).
    + destruct (0 <? b); intros [= <- <- <- <-]; auto.
    + intros Hl.
      assert (Hn' : 0 <= to_guint (n - Z.of_nat (length bytes))
                    <= n - Z.of_nat (length bytes)).
      { unfold to_guint. split; [apply Z.mod_pos_bound; lia|apply Z.mod_le; lia]. }
      apply IH in Hl as (added & -> & Hsz & Ho & Hp); [|lia].
      exists (bytes ++ added). simpl in Ho, Hp.
      rewrite to_guint64_add_l in Ho, Hp.
      unfold size_of in *. rewrite length_app, Nat2Z.inj_add, app_assoc.
      rewrite !Z.add_assoc. repeat split; auto. lia.
Qed.

Lemma to_guint64_congr x y s :
  to_guint64 x = to_guint64 y -> to_guint64 (x + s) = to_guint64 (y + s).
Proof.
  intros H. rewrite <- (to_guint64_add_l x), H. apply to_guint64_add_l.
Qed.

Lemma read_tensors_stores src w r b src' w' :
  gst_data_repo_src_read_tensors src w = Some (r, b, src', w') ->
  exists first second,
    size_of first <= to_guint (nth 0 (tensors_size src) 0)
    /\ size_of second <= to_guint (nth 1 (tensors_size src) 0)
    /\ to_guint64 (offset src')
       = to_guint64 (offset src + (size_of first + size_of second))
    /\ to_guint64 (read_position src')
       = to_guint64 (read_position src + (size_of first + size_of second))
    /\ (b = None /\ r <> GST_FLOW_OK
        \/ r = GST_FLOW_OK
           /\ b = Some [{| mem_size := nth 0 (tensors_size src) 0;
                           mem_data := first |};
                        {| mem_size := nth 1 (tensors_size src) 0;
                           mem_data := second |}]).
Proof.
  unfold gst_data_repo_src_read_tensors. cbn [seq read_tensors_for].
  destruct (read_loop _ src w [] 0 _) as [[[[e0 s0] w0] d0]|] eqn:E0;
    [|discriminate].
  pose proof (read_loop_moved _ _ _ _ _ _ _ _ _ _ E0) as Hm.
  apply moved_fields in Hm as (_ & _ & _ & Hts & _).
  apply read_loop_stores in E0 as (first & -> & Hsz0 & Ho0 & Hp0);
    [|apply to_guint_range].
  assert (Hnone : forall x, size_of (@nil byte) <= to_guint x)
    by (intros x; pose proof (to_guint_range x); unfold size_of; simpl; lia).
  destruct e0.
  2,3: intros [= <- <- <- _]; exists first, []; unfold size_of in *; simpl;
       rewrite Z.add_0_r; repeat split; auto; left; split; congruence.
  destruct (read_loop _ s0 w0 [] 0 _) as [[[[e1 s1] w1] d1]|] eqn:E1;
    [|discriminate].
  apply read_loop_stores in E1 as (second & -> & Hsz1 & Ho1 & Hp1);
    [|apply to_guint_range].
  rewrite Hts in Hsz1.
  rewrite (to_guint64_congr _ _ _ Ho0), <- Z.add_assoc in Ho1.
  rewrite (to_guint64_congr _ _ _ Hp0), <- Z.add_assoc in Hp1.
  simpl. rewrite Hts.
  intros H. exists first, second.
  destruct e1; injection H as <- <- <- _; repeat split; auto;
    left; split; congruence.
Qed.

(** One call of [gst_data_repo_src_read_tensors] at offset [pos] of the
    file, whatever the two sizes are. *)
Lemma read_tensors_any_sizes src w bytes pos :
  reading w (fd src) bytes pos -> 0 <= pos <= size_of bytes ->
  let a := to_guint (nth 0 (tensors_size src) 0) in
  let b := to_guint (nth 1 (tensors_size src) 0) in
  let rest := size_of bytes - pos in
  let k0 := Z.min a rest in
  exists src' w',
    gst_data_repo_src_read_tensors src w
    = Some (if tensor_gives_up a b rest then GST_FLOW_EOS else GST_FLOW_OK,
            if tensor_gives_up a b rest then None
            else Some [{| mem_size := nth 0 (tensors_size src) 0;
                          mem_data := sub_bytes pos k0 bytes |};
                       {| mem_size := nth 1 (tensors_size src) 0;
                          mem_data :=
                            sub_bytes (pos + k0) (Z.min b (rest - k0)) bytes |}],
            src', w').
Proof.
  intros Hr Hpos a b rest k0.
  pose proof (to_guint_range (nth 0 (tensors_size src) 0)) as Har.
  pose proof (to_guint_range (nth 1 (tensors_size src) 0)) as Hbr.
  fold a in Har. fold b in Hbr.
  unfold gst_data_repo_src_read_tensors, tensor_gives_up.
  cbn [seq read_tensors_for]. fold a.
  destruct (read_loop_reading (loop_fuel w a) src w [] 0 a bytes pos)
    as (src1 & w1 & E & Hr1 & Hm1); auto using loop_fuel_enough; try lia.
  rewrite E. clear E. fold rest in Hr1 |- *. fold k0 in Hr1 |- *.
  cbn [Z.add app].
  destruct ((0 <? a) && (k0 =? 0)) eqn:G0; cbn [orb]; [eauto|].
  destruct (moved_fields _ _ Hm1) as (Hfd & _ & _ & Hts & _).
  rewrite Hts. fold b. rewrite <- Hfd in Hr1.
  destruct (read_loop_reading (loop_fuel w1 b) src1 w1 [] 0 b bytes (pos + k0))
    as (src2 & w2 & E & Hr2 & Hm2); auto using loop_fuel_enough;
    try (unfold k0, rest in *; lia).
  rewrite E. clear E. cbn [Z.add app].
  replace (size_of bytes - (pos + k0)) with (rest - k0)
    by (unfold rest; lia).
  destruct ((0 <? b) && (Z.min b (rest - k0) =? 0)); eauto.
Qed.

(** C4, as amended.  In a tensor session, however many sizes the
    descriptor resolved to, a read goes through exactly two segments,
    those of [tensors_size[0]] and [tensors_size[1]] in that order.  On a
    file being read it gives the record up, with end of stream, exactly
    when a segment that wants bytes finds none left; otherwise it
    succeeds with a buffer of exactly two memories, allocated with these
    two sizes, the first holding the next bytes of the file up to its
    size and the second the bytes after them up to its size, fewer only
    where the file ends.  In any world a successful read returns two
    memories of these sizes.  For a descriptor of two components (of
    total size below 2^32) the two sizes are the resolved sizes, in
    order. *)
Theorem tensor_buffer_has_two_segments
    (MAX_ITEM : nat) (fmt : string -> Z -> string)
    (src0 : GstDataRepoSrc) (d : list GstTensorInfo)
    (src1 src : GstDataRepoSrc) (w : World) (bytes : list byte) (pos : Z) :
  length (tensors_size src0) = MAX_ITEM ->
  gst_data_repo_src_get_media_info MAX_ITEM src0 (other_tensors d) = (true, src1) ->
  media src = media src1 ->
  tensors_size src = tensors_size src1 ->
  reading w (fd src) bytes pos -> 0 <= pos <= size_of bytes ->
  let s0 := nth 0 (tensors_size src) 0 in
  let s1 := nth 1 (tensors_size src) 0 in
  let rest := size_of bytes - pos in
  let k0 := Z.min (to_guint s0) rest in
  (exists src' w',
      gst_data_repo_src_create fmt src w
      = Some (if tensor_gives_up (to_guint s0) (to_guint s1) rest
              then GST_FLOW_EOS else GST_FLOW_OK,
              if tensor_gives_up (to_guint s0) (to_guint s1) rest then None
              else Some [{| mem_size := s0; mem_data := sub_bytes pos k0 bytes |};
                         {| mem_size := s1;
                            mem_data :=
                              sub_bytes (pos + k0)
                                (Z.min (to_guint s1) (rest - k0)) bytes |}],
              src', w'))
  /\ (forall w2 buf src2 w2',
         gst_data_repo_src_create fmt src w2
         = Some (GST_FLOW_OK, Some buf, src2, w2') ->
         map mem_size buf = [s0; s1]
         /\ Forall (fun m => size_of (mem_data m) <= to_guint (mem_size m)) buf)
  /\ (length d = 2%nat -> declared_size d < 2 ^ 32 ->
      [s0; s1] = map gst_tensor_info_get_size d).
Proof.
  intros Hlen Hres Hm Hts Hr Hpos s0 s1 rest k0.
  apply get_media_info_tensors in Hres as (HM & Hok & Hme & Hsz).
  unfold gst_data_repo_src_create. rewrite Hm, Hme.
  split; [|split].
  - exact (read_tensors_any_sizes src w bytes pos Hr Hpos).
  - intros w2 buf src2 w2' Hc.
    apply read_tensors_stores in Hc as (first & second & H0 & H1 & _ & _ & Hb).
    destruct Hb as [[Hb _]|[_ Hb]]; [discriminate|].
    injection Hb as ->. split; [reflexivity|].
    repeat constructor; assumption.
  - intros H2 Hb. unfold s0, s1. rewrite Hts, Hsz, resolved_sizes by (auto; lia).
    destruct d as [|x [|y [|z d]]]; try discriminate. reflexivity.
Qed.

Lemma whole_world_reading : reading whole_world (fd whole_src) six_bytes 0.
Proof. split; [exists (Some S_IFREG)|]; reflexivity. Qed.

Lemma single_world_reading : reading single_world (fd single_src) three_bytes 0.
Proof. split; [exists (Some S_IFREG)|]; reflexivity. Qed.

(** Sizes 4 and 2 on six bytes: both segments whole.  One tensor of four
    bytes on three bytes: the read succeeds with three bytes in the first
    memory and an empty second one. *)
Lemma tensor_buffer_has_two_segments_witness :
  (exists src' w',
      gst_data_repo_src_create printf_index whole_src whole_world
      = Some (GST_FLOW_OK,
              Some [{| mem_size := 4; mem_data := bytes_of "abcd" |};
                    {| mem_size := 2; mem_data := bytes_of "ef" |}],
              src', w'))
  /\ (exists src' w',
         gst_data_repo_src_create printf_index single_src single_world
         = Some (GST_FLOW_OK,
                 Some [{| mem_size := 4; mem_data := bytes_of "abc" |};
                       {| mem_size := 0; mem_data := [] |}],
                 src', w'))
  /\ [nth 0 (tensors_size whole_src) 0; nth 1 (tensors_size whole_src) 0]
     = map gst_tensor_info_get_size pair_42.
Proof.
  split; [|split].
  - apply (proj1 (tensor_buffer_has_two_segments 16 printf_index located_src
                    pair_42 resolved_pair whole_src whole_world six_bytes 0
                    eq_refl eq_refl eq_refl eq_refl whole_world_reading
                    ltac:(split; discriminate))).
  - apply (proj1 (tensor_buffer_has_two_segments 16 printf_index located_src
                    single_4 resolved_single single_src single_world
                    three_bytes 0
                    eq_refl eq_refl eq_refl eq_refl single_world_reading
                    ltac:(split; discriminate))).
  - apply (proj2 (proj2 (tensor_buffer_has_two_segments 16 printf_index
                           located_src pair_42 resolved_pair whole_src
                           whole_world six_bytes 0
                           eq_refl eq_refl eq_refl eq_refl whole_world_reading
                           ltac:(split; discriminate)))).
    + reflexivity.
    + reflexivity.
Defined.

(** C4, as worded, fails: a descriptor of three components of one byte
    resolves to three sizes, and a successful read returns two memories. *)
Lemma tensor_segments_counterexample :
  (exists src' w',
      gst_data_repo_src_create printf_index triple_src triple_world
      = Some (GST_FLOW_OK,
              Some [{| mem_size := 1; mem_data := bytes_of "a" |};
                    {| mem_size := 1; mem_data := bytes_of "b" |}],
              src', w'))
  /\ ~ tensor_buffer_has_every_segment 16 printf_index.
Proof.
  split; [exists (fst triple_next), (snd triple_next); reflexivity|].
  intros H.
  specialize (H located_src triple_1 resolved_triple triple_src triple_world
                [{| mem_size := 1; mem_data := bytes_of "a" |};
                 {| mem_size := 1; mem_data := bytes_of "b" |}]
                (fst triple_next) (snd triple_next) eq_refl).
  assert (A : map mem_size
                [{| mem_size := 1; mem_data := bytes_of "a" |};
                 {| mem_size := 1; mem_data := bytes_of "b" |}]
              = firstn (length triple_1) (tensors_size triple_src)).
  { apply H.
    - split; apply Nat.leb_le; reflexivity.
    - reflexivity.
    - reflexivity.
    - reflexivity.
    - reflexivity. }
  discriminate A.
Qed.

(** ** Image sequences *)

Lemma start_successful_read fmt src w :
  successful_read (snd (fst (gst_data_repo_src_start fmt src w)))
  = successful_read src.
Proof.
  unfold gst_data_repo_src_start, error_close.
  destruct (filename src) as [f|]; [|reflexivity].
  destruct (string_is_empty f); [reflexivity|].
  destruct (g_open w _) as [[e|d] w1]; [reflexivity|].
  destruct (d <? 0); [reflexivity|].
  destruct (fstat w1 d) as [[[]|] w2]; try reflexivity.
  simpl. now destruct (media src).
Qed.


Lemma set_caps_successful_read MAX_ITEM src caps :
  successful_read (snd (gst_data_repo_src_set_caps MAX_ITEM src caps))
  = successful_read src.
Proof.
  unfold gst_data_repo_src_set_caps, gst_data_repo_src_get_media_info,
    gst_data_repo_src_get_tensors_size.
  destruct caps; simpl; try reflexivity.
  - destruct (gst_tensors_config_from_structure MAX_ITEM s); simpl;
      [reflexivity|].
    destruct (tensors_size_loop 0 g (tensors_size src) 0) as [sizes size].
    now destruct (size =? 0).
  - now destruct (gst_data_repo_src_get_video_size info_size =? 0).
  - now destruct (gst_data_repo_src_get_audio_size rate channel depth =? 0).
Qed.

Lemma set_property_successful_read src l :
  successful_read (gst_data_repo_src_set_property src l) = successful_read src.
Proof.
  unfold gst_data_repo_src_set_property, gst_data_repo_src_set_location.
  destruct (negb _ && negb _); [reflexivity|]. now destruct l.
Qed.

Lemma read_others_moved src w r b src' w' :
  gst_data_repo_src_read_others src w = Some (r, b, src', w') -> moved src src'.
Proof.
  unfold gst_data_repo_src_read_others.
  destruct (read_loop _ src w [] 0 _) as [[[[e s1] w1] d1]|] eqn:E;
    [|discriminate].
  apply read_loop_moved in E.
  destruct e; intros [= _ _ <- _]; exact E.
Qed.

Lemma read_tensors_moved src w r b src' w' :
  gst_data_repo_src_read_tensors src w = Some (r, b, src', w') -> moved src src'.
Proof.
  unfold gst_data_repo_src_read_tensors. cbn [seq read_tensors_for].
  destruct (read_loop _ src w [] 0 _) as [[[[e0 s0] w0] d0]|] eqn:E0;
    [|discriminate].
  apply read_loop_moved in E0.
  destruct e0; try (intros [= _ _ <- _]; exact E0).
  destruct (read_loop _ s0 w0 [] 0 _) as [[[[e1 s1] w1] d1]|] eqn:E1;
    [|discriminate].
  apply read_loop_moved in E1.
  destruct e1; intros [= _ _ <- _]; eapply moved_trans; eauto.
Qed.

(** A read of another kind than images leaves the image state alone. *)
Lemma create_not_image fmt src w r b src' w' :
  is_image (media src) = false ->
  gst_data_repo_src_create fmt src w = Some (r, b, src', w') ->
  successful_read src' = successful_read src
  /\ frame_index src' = frame_index src /\ media src' = media src.
Proof.
  unfold gst_data_repo_src_create. intros Hi Hc.
  assert (moved src src' \/ src' = src) as [Hm| ->]; [|now apply moved_fields in Hm|auto].
  destruct (media src); try discriminate;
    try (injection Hc as _ _ <- _; now right);
    left; eauto using read_others_moved, read_tensors_moved.
Qed.

(** A read of an image: success marks the element and moves to the next
    frame; anything else changes nothing in the element. *)
Lemma create_image fmt src w r b src' w' :
  media src = _NNS_IMAGE ->
  gst_data_repo_src_create fmt src w = Some (r, b, src', w') ->
  media src' = _NNS_IMAGE
  /\ match r with
     | GST_FLOW_OK =>
         successful_read src' = true /\ frame_index src' = frame_index src + 1
     | _ => src' = src
     end.
Proof.
  unfold gst_data_repo_src_create, gst_data_repo_src_read_multi_images.
  intros Hm. rewrite Hm.
  destruct (g_file_get_contents w _) as [[data|] w1].
  - intros [= <- _ <- _]. simpl. auto.
  - destruct (successful_read src); intros [= <- _ <- _]; auto.
Qed.

(** Every call into the element returns. *)
Lemma create_total fmt src w :
  exists r, gst_data_repo_src_create fmt src w = Some r.
Proof.
  unfold gst_data_repo_src_create, gst_data_repo_src_read_others,
    gst_data_repo_src_read_tensors.
  destruct (media src); eauto; cbn [seq read_tensors_for].
  1-4: destruct (read_loop_total (loop_fuel w (to_guint (media_size src)))
                   src w [] 0 (to_guint (media_size src)))
         as [[[[e s1] w1] d1] E];
       [apply to_guint_range|apply loop_fuel_enough|];
       rewrite E; destruct e; eauto.
  set (a := to_guint (nth 0 (tensors_size src) 0)).
  destruct (read_loop_total (loop_fuel w a) src w [] 0 a)
    as [[[[e0 s0] w0] d0] E0];
    [apply to_guint_range|apply loop_fuel_enough|].
  rewrite E0. destruct e0; eauto.
  set (b := to_guint (nth 1 (tensors_size s0) 0)).
  destruct (read_loop_total (loop_fuel w0 b) s0 w0 [] 0 b)
    as [[[[e1 s1] w1] d1] E1];
    [apply to_guint_range|apply loop_fuel_enough|].
  rewrite E1. destruct e1; eauto.
Qed.

Lemma host_step_total MAX_ITEM fmt c ses w :
  exists r, host_step MAX_ITEM fmt c ses w = Some r.
Proof.
  destruct c; simpl; eauto.
  - destruct (is_started _); eauto.
    destruct (gst_data_repo_src_start fmt (element ses) w) as [[ok s1] w1]; eauto.
  - destruct (is_started _); eauto.
    destruct (create_total fmt (element ses) w) as [[[[r b] s1] w1] E].
    rewrite E. eauto.
  - destruct (is_started _); eauto.
Qed.

Lemma host_run_total MAX_ITEM fmt calls :
  forall ses w, exists r, host_run MAX_ITEM fmt calls ses w = Some r.
Proof.
  induction calls as [|c calls IH]; intros ses w; simpl; eauto.
  destruct (host_step_total MAX_ITEM fmt c ses w) as [[ses1 w1] E].
  rewrite E. apply IH.
Qed.

Lemma host_step_flag MAX_ITEM fmt c ses w ses' w' :
  host_step MAX_ITEM fmt c ses w = Some (ses', w') ->
  flag_counts_ever ses -> flag_counts_ever ses'.
Proof.
  unfold flag_counts_ever. destruct c; simpl.
  - intros [= <- _]. simpl. now rewrite set_property_successful_read.
  - intros [= <- _]. simpl. now rewrite set_caps_successful_read.
  - destruct (is_started _); [now intros [= <- _]|].
    pose proof (start_successful_read fmt (element ses) w) as Hs.
    destruct (gst_data_repo_src_start fmt (element ses) w) as [[ok s1] w1].
    intros [= <- _]. simpl in *. now destruct ok; simpl; rewrite Hs.
  - destruct (is_started _); [|now intros [= <- _]].
    destruct (gst_data_repo_src_create fmt (element ses) w)
      as [[[[r b] s1] w1]|] eqn:E; [|discriminate].
    intros [= <- _] Hf. simpl.
    destruct (is_image (media (element ses))) eqn:Hi.
    + assert (Hm : media (element ses) = _NNS_IMAGE)
        by (destruct (media (element ses)); now try discriminate).
      destruct (create_image _ _ _ _ _ _ _ Hm E) as [_ Hr].
      destruct r; [destruct Hr as [-> _]; reflexivity|subst s1; exact Hf..].
    + destruct (create_not_image _ _ _ _ _ _ _ Hi E) as (-> & _).
      now destruct r.
  - destruct (is_started _); now intros [= <- _].
  - now intros [= <- _].
Qed.

Lemma host_run_flag MAX_ITEM fmt calls :
  forall ses w ses' w',
    host_run MAX_ITEM fmt calls ses w = Some (ses', w') ->
    flag_counts_ever ses -> flag_counts_ever ses'.
Proof.
  induction calls as [|c calls IH]; intros ses w ses' w'; simpl.
  - now intros [= <- _].
  - destruct (host_step MAX_ITEM fmt c ses w) as [[ses1 w1]|] eqn:E;
      [|discriminate].
    eauto using host_step_flag.
Qed.

(** C3, as amended.  Reading an image never looks at [stop_frame_index]:
    the same call with any other stop index gives the same result, and
    whenever the file of the current frame can be read the call succeeds
    with its content, whatever the frame and stop indices. *)
Theorem image_read_ignores_stop_index
    (fmt : string -> Z -> string) (src : GstDataRepoSrc) (w : World) :
  media src = _NNS_IMAGE ->
  (forall k,
      gst_data_repo_src_create fmt (set_stop_frame_index src k) w
      = match gst_data_repo_src_create fmt src w with
        | Some (r, b, src', w') => Some (r, b, set_stop_frame_index src' k, w')
        | None => None
        end)
  /\ (forall data w1,
         g_file_get_contents w (gst_data_repo_src_get_image_filename fmt src)
         = (Some data, w1) ->
         gst_data_repo_src_create fmt src w
         = Some (GST_FLOW_OK,
                 Some [{| mem_size := size_of data; mem_data := data |}],
                 set_frame_index (set_successful_read src true)
                   (frame_index src + 1),
                 w1)).
Proof.
  intros Hm. unfold gst_data_repo_src_create. simpl. rewrite Hm.
  unfold gst_data_repo_src_read_multi_images, gst_data_repo_src_get_image_filename.
  simpl. rewrite Hm. split.
  - intros k. destruct (g_file_get_contents w _) as [[data|] w1];
      [reflexivity|]. now destruct (successful_read src).
  - intros data w1 E. now rewrite E.
Qed.

(** Frame index 3 with the stop index at 2, and [img3.png] in place. *)
Lemma image_read_ignores_stop_index_witness :
  frame_index stopped_at_2 = 3 /\ stop_frame_index stopped_at_2 = 2
  /\ gst_data_repo_src_create printf_index stopped_at_2 (snd image_session_3)
     = Some (GST_FLOW_OK,
             Some [{| mem_size := 3; mem_data := png_bytes |}],
             set_frame_index (set_successful_read stopped_at_2 true) 4,
             log (call_get_contents "img3.png") (snd image_session_3)).
Proof.
  split; [reflexivity|]. split; [reflexivity|].
  apply (proj2 (image_read_ignores_stop_index printf_index stopped_at_2
                  (snd image_session_3) eq_refl)
           png_bytes
           (log (call_get_contents "img3.png") (snd image_session_3))).
  reflexivity.
Defined.

(** With images 0 to 10 in place, eleven reads succeed and the twelfth
    signals end of stream. *)
Example eleven_images_then_eos :
  images (fst image_session_12) = 11%nat
  /\ last_flow (fst image_session_12) = Some GST_FLOW_EOS
  /\ frame_index (element (fst image_session_12)) = 11.
Proof. repeat split. Qed.

(** C3, as worded, fails: after one read the frame index is 1, past the
    stop index 0 the element was created with, and the second read
    succeeds; likewise the fourth read with the stop index at 2. *)
Lemma stop_index_counterexample :
  (frame_index (element (fst image_session_1)) = 1
   /\ stop_frame_index (element (fst image_session_1)) = 0
   /\ exists b src' w',
       gst_data_repo_src_create printf_index
         (element (fst image_session_1)) (snd image_session_1)
       = Some (GST_FLOW_OK, b, src', w'))
  /\ (frame_index stopped_at_2 = 3 /\ stop_frame_index stopped_at_2 = 2
      /\ exists b src' w',
          gst_data_repo_src_create printf_index stopped_at_2
            (snd image_session_3)
          = Some (GST_FLOW_OK, b, src', w'))
  /\ ~ stop_index_ends_stream printf_index.
Proof.
  split; [|split].
  - repeat split. do 3 eexists. reflexivity.
  - repeat split. do 3 eexists. reflexivity.
  - intros H.
    destruct (H (element (fst image_session_1)) (snd image_session_1))
      as (src' & w' & E).
    + reflexivity.
    + discriminate.
    + reflexivity.
    + discriminate E.
Qed.

(** C6, as amended.  When the file of the current frame cannot be read,
    the call signals end of stream if an image was read at any time since
    the element was created, in this session or an earlier one, and fails
    if none ever was. *)
Theorem image_miss_after_any_read
    (MAX_ITEM : nat) (fmt : string -> Z -> string)
    (calls : list host_call) (w0 : World) (ses : session) (w : World) :
  host_run MAX_ITEM fmt calls (new_session MAX_ITEM) w0 = Some (ses, w) ->
  media (element ses) = _NNS_IMAGE ->
  fst (g_file_get_contents w
         (gst_data_repo_src_get_image_filename fmt (element ses))) = None ->
  gst_data_repo_src_create fmt (element ses) w
  = Some (if (0 <? images_ever ses)%nat then GST_FLOW_EOS else GST_FLOW_ERROR,
          None, element ses,
          snd (g_file_get_contents w
                 (gst_data_repo_src_get_image_filename fmt (element ses)))).
Proof.
  intros Hrun Hm Hmiss.
  apply host_run_flag in Hrun; [|reflexivity].
  unfold flag_counts_ever in Hrun. rewrite <- Hrun.
  unfold gst_data_repo_src_create. rewrite Hm.
  unfold gst_data_repo_src_read_multi_images.
  destruct (g_file_get_contents w _) as [[data|] w1]; [discriminate|].
  now destruct (successful_read (element ses)).
Qed.

(** The first read of a restarted session, its file gone: end of stream;
    the first read of a first session, its file gone: failure. *)
Lemma image_miss_after_any_read_witness :
  (gst_data_repo_src_create printf_index (element (fst restarted)) (snd restarted)
   = Some (GST_FLOW_EOS, None, element (fst restarted),
           log (call_get_contents "img0.png") (snd restarted)))
  /\ (gst_data_repo_src_create printf_index (element (fst unlinked)) (snd unlinked)
      = Some (GST_FLOW_ERROR, None, element (fst unlinked),
              log (call_get_contents "img0.png") (snd unlinked))).
Proof.
  split.
  - apply (image_miss_after_any_read 16 printf_index restart_calls
             (world_of image_dir) (fst restarted) (snd restarted));
      reflexivity.
  - apply (image_miss_after_any_read 16 printf_index unlink_calls
             (world_of image_dir) (fst unlinked) (snd unlinked));
      reflexivity.
Defined.

(** C6, as worded, fails: in a session started again after one image was
    read, the first read finds its file gone and signals end of stream,
    although no image was read in this session. *)
Lemma first_miss_counterexample :
  (images (fst restarted) = 0%nat
   /\ exists src' w',
       gst_data_repo_src_create printf_index (element (fst restarted))
         (snd restarted)
       = Some (GST_FLOW_EOS, None, src', w'))
  /\ ~ first_miss_of_session_fails 16 printf_index.
Proof.
  split.
  - split; [reflexivity|]. do 2 eexists. reflexivity.
  - intros H.
    destruct (H restart_calls (world_of image_dir) (fst restarted) (snd restarted))
      as (src' & w' & E); try reflexivity.
    discriminate E.
Qed.

Lemma get_contents_same_files w1 w p :
  w_path w1 = w_path w ->
  fst (g_file_get_contents w1 p) = fst (g_file_get_contents w p).
Proof.
  intros H. unfold g_file_get_contents. destruct p as [p|]; [|reflexivity].
  rewrite H. destruct (w_path w p) as [e|node]; [reflexivity|].
  now destruct (i_stat node) as [[]|].
Qed.

Lemma get_contents_keeps_files w p :
  w_path (snd (g_file_get_contents w p)) = w_path w.
Proof.
  unfold g_file_get_contents. destruct p as [p|]; [|reflexivity].
  destruct (w_path w p) as [e|node]; [reflexivity|].
  now destruct (i_stat node) as [[]|].
Qed.

Lemma host_create_image MAX_ITEM fmt ses w ses' w' :
  media (element ses) = _NNS_IMAGE ->
  host_step MAX_ITEM fmt host_create ses w = Some (ses', w') ->
  media (element ses') = _NNS_IMAGE
  /\ frame_index (element ses') + Z.of_nat (images ses)
     = frame_index (element ses) + Z.of_nat (images ses').
Proof.
  intros Hm. simpl. destruct (is_started _); [|now intros [= <- _]].
  destruct (gst_data_repo_src_create fmt (element ses) w)
    as [[[[r b] s1] w1]|] eqn:E; [|discriminate].
  destruct (create_image _ _ _ _ _ _ _ Hm E) as [Hm1 Hr].
  intros [= <- _]. simpl. split; [exact Hm1|]. rewrite Hm. simpl.
  destruct r; [destruct Hr as [_ ->]|subst s1..]; lia.
Qed.

(** C7.  For images, a read whose file can be read succeeds and moves
    [frame_index] on by exactly one; a successful read always moves it on
    by exactly one and any other result leaves it where it was.  So over
    any number of reads the frame index has grown by the number of images
    delivered and never goes down, and when the files of the next [n]
    frames can be read, [n] reads deliver [n] images and take the frame
    index from [i] to [i + n]. *)
Theorem frame_index_counts_images
    (MAX_ITEM : nat) (fmt : string -> Z -> string) :
  (forall src w r b src' w',
      media src = _NNS_IMAGE ->
      gst_data_repo_src_create fmt src w = Some (r, b, src', w') ->
      frame_index src'
      = frame_index src + match r with GST_FLOW_OK => 1 | _ => 0 end)
  /\ (forall n ses w ses' w',
         media (element ses) = _NNS_IMAGE ->
         host_run MAX_ITEM fmt (repeat host_create n) ses w = Some (ses', w') ->
         frame_index (element ses') + Z.of_nat (images ses)
         = frame_index (element ses) + Z.of_nat (images ses')
         /\ frame_index (element ses) <= frame_index (element ses'))
  /\ (forall src w data w1,
         media src = _NNS_IMAGE ->
         g_file_get_contents w (gst_data_repo_src_get_image_filename fmt src)
         = (Some data, w1) ->
         exists src',
           gst_data_repo_src_create fmt src w
           = Some (GST_FLOW_OK,
                   Some [{| mem_size := size_of data; mem_data := data |}],
                   src', w1)
           /\ frame_index src' = frame_index src + 1)
  /\ (forall n ses w f,
         media (element ses) = _NNS_IMAGE ->
         is_started (state (element ses)) = true ->
         filename (element ses) = Some f ->
         (forall k, (k < n)%nat ->
            fst (g_file_get_contents w
                   (Some (fmt f (frame_index (element ses) + Z.of_nat k))))
            <> None) ->
         exists ses' w',
           host_run MAX_ITEM fmt (repeat host_create n) ses w = Some (ses', w')
           /\ frame_index (element ses')
              = frame_index (element ses) + Z.of_nat n
           /\ images ses' = (n + images ses)%nat).
Proof.
  split; [|split; [|split]].
  - intros src w r b src' w' Hm Hc.
    destruct (create_image _ _ _ _ _ _ _ Hm Hc) as [_ Hr].
    destruct r; [destruct Hr as [_ ->]|subst src'..]; lia.
  - induction n as [|n IH]; intros ses w ses' w' Hm; cbn [repeat host_run].
    + intros [= <- _]. lia.
    + destruct (host_step MAX_ITEM fmt host_create ses w) as [[ses1 w1]|] eqn:E;
        [|discriminate].
      intros Hrun.
      destruct (host_create_image _ _ _ _ _ _ Hm E) as [Hm1 H1].
      destruct (IH _ _ _ _ Hm1 Hrun) as [H2 H3].
      assert (images ses <= images ses1)%nat.
      { clear - E. simpl in E. destruct (is_started _); [|injection E as <- _; lia].
        destruct (gst_data_repo_src_create fmt (element ses) w)
          as [[[[r b] s1] w1']|]; [|discriminate].
        injection E as <- _. simpl. lia. }
      lia.
  - intros src w data w1 Hm Hg.
    unfold gst_data_repo_src_create. rewrite Hm.
    unfold gst_data_repo_src_read_multi_images. rewrite Hg.
    eexists. split; reflexivity.
  - induction n as [|n IH]; intros ses w f Hm Hs Hf Hk; cbn [repeat host_run].
    + exists ses, w. rewrite Z.add_0_r. auto.
    + cbn [host_step]. rewrite Hs.
      unfold gst_data_repo_src_create. rewrite Hm.
      unfold gst_data_repo_src_read_multi_images,
        gst_data_repo_src_get_image_filename. rewrite Hm, Hf.
      pose proof (Hk 0%nat ltac:(lia)) as H0. cbn [Z.of_nat] in H0.
      rewrite Z.add_0_r in H0.
      pose proof (get_contents_keeps_files w
                    (Some (fmt f (frame_index (element ses))))) as Hw.
      destruct (g_file_get_contents w
                  (Some (fmt f (frame_index (element ses)))))
        as [[data|] w1]; cbn [fst snd] in H0, Hw; [|congruence].
      cbn [is_image].
      match goal with
      | |- exists ses' w', host_run _ _ _ ?s ?w0 = _ /\ _ =>
          destruct (IH s w0 f) as (ses' & w' & E & Hfi & Him)
      end.
      * exact Hm.
      * exact Hs.
      * exact Hf.
      * intros k Hlt. cbn [element frame_index set_frame_index
                             set_successful_read].
        rewrite (get_contents_same_files w1 w) by exact Hw.
        replace (frame_index (element ses) + 1 + Z.of_nat k)
          with (frame_index (element ses) + Z.of_nat (S k)) by lia.
        apply Hk. lia.
      * exists ses', w'. split; [exact E|].
        cbn [element images frame_index set_frame_index set_successful_read]
          in Hfi, Him.
        split; lia.
Qed.

(** Five reads in the session on images 0 to 10: five images delivered,
    the frame index taken from 0 to 5. *)
Lemma frame_index_counts_images_witness :
  host_run 16 printf_index (repeat host_create 5)
    (fst image_session_0) (snd image_session_0)
  = Some image_session_5
  /\ frame_index (element (fst image_session_0)) = 0
  /\ images (fst image_session_0) = 0%nat
  /\ frame_index (element (fst image_session_5)) = 5
  /\ images (fst image_session_5) = 5%nat.
Proof.
  destruct (proj2 (proj2 (proj2 (frame_index_counts_images 16 printf_index)))
              5%nat (fst image_session_0) (snd image_session_0)
              "img%d.png"%string)
    as (ses' & w' & E & Hfi & Him).
  - reflexivity.
  - reflexivity.
  - reflexivity.
  - intros k Hk.
    do 5 (destruct k as [|k]; [discriminate|]). lia.
  - assert (E5 : host_run 16 printf_index (repeat host_create 5)
                   (fst image_session_0) (snd image_session_0)
                 = Some image_session_5) by reflexivity.
    rewrite E5 in E. injection E as <- _.
    split; [exact E5|]. split; [reflexivity|]. split; [reflexivity|].
    split; [exact Hfi|exact Him].
Defined.



(** The same through the pipeline: the restarted session has delivered
    nothing, and its first read ends the stream. *)
Example restarted_session_ends_at_once :
  images (fst restarted_read) = 0%nat
  /\ images_ever (fst restarted_read) = 1%nat
  /\ last_flow (fst restarted_read) = Some GST_FLOW_EOS.
Proof. repeat split. Qed.

(** ** Starting and configuring *)

Lemma fresh_fd_positive t : 0 < fresh_fd t.
Proof.
  unfold fresh_fd.
  assert (2 <= fold_right (fun e m => Z.max (fst e) m) 2 t)
    by (induction t; simpl; lia).
  lia.
Qed.

(** C8.  Without a file name, [start] fails and leaves the world as it
    was: no system call is made, so no file is opened.  When the name
    leads to something that is not a regular file (a directory, a socket,
    any other kind, or a node that cannot be examined), [start] fails
    after closing the descriptor it opened: the table of open descriptors
    is as before, and the calls made are one [open], one [fstat] and one
    [close], no [read]. *)
Theorem start_needs_regular_file
    (fmt : string -> Z -> string) (src : GstDataRepoSrc) (w : World) :
  (filename src = None \/ filename src = Some EmptyString ->
   gst_data_repo_src_start fmt src w = (false, src, w))
  /\ (forall f name node,
         filename src = Some f -> f <> EmptyString ->
         name = (if is_image (media src)
                 then fmt f (start_frame_index src) else f) ->
         w_path w name = inr node ->
         i_stat node <> Some S_IFREG ->
         exists src',
           gst_data_repo_src_start fmt src w
           = (false, src',
              {| w_path := w_path w; w_fds := w_fds w; w_events := w_events w;
                 w_trace :=
                   [call_close (fresh_fd (w_fds w));
                    call_fstat (fresh_fd (w_fds w)); call_open name]
                   ++ w_trace w |})
           /\ fd src' = 0).
Proof.
  split.
  - intros [H|H]; unfold gst_data_repo_src_start; rewrite H; reflexivity.
  - intros f name node Hf Hne Hname Hnode Hst.
    unfold gst_data_repo_src_start. rewrite Hf.
    destruct f as [|c f]; [congruence|]. cbn [string_is_empty].
    set (src1 := set_frame_index src (start_frame_index src)).
    assert (Hn : match media src1 with
                 | _NNS_IMAGE => gst_data_repo_src_get_image_filename fmt src1
                 | _ => Some (String c f)
                 end = Some name).
    { subst name. unfold gst_data_repo_src_get_image_filename, src1. simpl.
      rewrite Hf. now destruct (media src). }
    rewrite Hn. unfold g_open. rewrite Hnode.
    set (d := fresh_fd (w_fds w)).
    replace (d <? 0) with false
      by (symmetry; apply Z.ltb_ge; pose proof (fresh_fd_positive (w_fds w));
          unfold d; lia).
    unfold fstat. cbn [with_fds log w_fds lookup_fd]. rewrite Z.eqb_refl.
    cbn [of_node].
    assert (Hclose :
      error_close (set_fd src1 d)
        (log (call_fstat d)
           (with_fds (log (call_open name) w)
              ((d, {| of_node := node; of_pos := 0 |}) :: w_fds w)))
      = (false, set_fd (set_fd src1 d) 0,
         {| w_path := w_path w; w_fds := w_fds w; w_events := w_events w;
            w_trace := [call_close d; call_fstat d; call_open name] ++ w_trace w |})).
    { unfold error_close, g_close, with_fds, log. cbn [w_fds w_path w_events w_trace fd set_fd].
      unfold d. now rewrite remove_fresh_fd. }
    destruct (i_stat node) as [[]|]; try congruence;
      rewrite Hclose; eexists; split; reflexivity.
Qed.

Lemma start_needs_regular_file_witness :
  gst_data_repo_src_start printf_index (gst_data_repo_src_init 16)
    directory_world
  = (false, gst_data_repo_src_init 16, directory_world)
  /\ exists src',
      gst_data_repo_src_start printf_index located_src directory_world
      = (false, src',
         {| w_path := w_path directory_world; w_fds := [];
            w_events := [];
            w_trace := [call_close 3; call_fstat 3; call_open "f.dat"] |})
      /\ fd src' = 0.
Proof.
  split.
  - apply (proj1 (start_needs_regular_file printf_index
                    (gst_data_repo_src_init 16) directory_world)).
    left. reflexivity.
  - apply (proj2 (start_needs_regular_file printf_index located_src
                    directory_world)
             "f.dat"%string "f.dat"%string
             {| i_stat := Some S_IFDIR; i_data := [] |}).
    + reflexivity.
    + discriminate.
    + reflexivity.
    + reflexivity.
    + discriminate.
Defined.

(** C9.  While the element is in another state than READY and NULL,
    setting the location fails, reports the bad state to a caller that
    asked for the error, and leaves the element, its file name included,
    as it was.  In READY and NULL it succeeds, and the file name becomes
    the new location. *)
Theorem set_location_needs_stopped_element
    (src : GstDataRepoSrc) (location : option string) (err : bool) :
  (state src <> GST_STATE_READY -> state src <> GST_STATE_NULL ->
   gst_data_repo_src_set_location src location err
   = (false, if err then Some GST_URI_ERROR_BAD_STATE else None, src))
  /\ (state src = GST_STATE_READY \/ state src = GST_STATE_NULL ->
      gst_data_repo_src_set_location src location err
      = (true, None, set_filename src location)
      /\ filename (snd (gst_data_repo_src_set_location src location err))
         = location).
Proof.
  unfold gst_data_repo_src_set_location. split.
  - intros H1 H2. destruct (state src); simpl; congruence.
  - intros [H|H]; rewrite H; simpl; destruct location; auto.
Qed.

Lemma set_location_needs_stopped_element_witness :
  gst_data_repo_src_set_location (element (fst image_session_0))
    (Some "other.png"%string) true
  = (false, Some GST_URI_ERROR_BAD_STATE, element (fst image_session_0))
  /\ (gst_data_repo_src_set_location (gst_data_repo_src_init 16)
        (Some "other.png"%string) true
      = (true, None,
         set_filename (gst_data_repo_src_init 16) (Some "other.png"%string))
      /\ filename (snd (gst_data_repo_src_set_location
                          (gst_data_repo_src_init 16)
                          (Some "other.png"%string) true))
         = Some "other.png"%string).
Proof.
  split.
  - apply (proj1 (set_location_needs_stopped_element
                    (element (fst image_session_0))
                    (Some "other.png"%string) true));
      discriminate.
  - apply (proj2 (set_location_needs_stopped_element
                    (gst_data_repo_src_init 16) (Some "other.png"%string) true)).
    right. reflexivity.
Defined.

(** * Further properties of the element *)

(** ** Bytes stored and bytes counted *)

Lemma read_others_stores src w r b src' w' :
  gst_data_repo_src_read_others src w = Some (r, b, src', w') ->
  exists added,
    size_of added <= to_guint (media_size src)
    /\ to_guint64 (offset src') = to_guint64 (offset src + size_of added)
    /\ to_guint64 (read_position src')
       = to_guint64 (read_position src + size_of added)
    /\ (b = None /\ r <> GST_FLOW_OK
        \/ r = GST_FLOW_OK
           /\ b = Some [{| mem_size := media_size src; mem_data := added |}]).
Proof.
  unfold gst_data_repo_src_read_others.
  destruct (read_loop _ src w [] 0 _) as [[[[e s1] w1] d1]|] eqn:E;
    [|discriminate].
  apply read_loop_stores in E as (added & -> & Hsz & Ho & Hp);
    [|apply to_guint_range].
  intros H. exists added. simpl.
  destruct e; injection H as <- <- <- _; repeat split; auto;
    left; split; congruence.
Qed.



(** X2: no write past the allocation.  For every kind but images and in
    any world, each memory of a buffer that [create] returns holds at
    most as many bytes as were allocated for it; for the kinds of one
    fixed-size segment the buffer is a single memory of [media_size]
    bytes. *)
Theorem create_stays_within_allocation
    (fmt : string -> Z -> string) (src : GstDataRepoSrc) (w : World)
    (r : GstFlowReturn) (buf : GstBuffer)
    (src' : GstDataRepoSrc) (w' : World) :
  is_image (media src) = false ->
  gst_data_repo_src_create fmt src w = Some (r, Some buf, src', w') ->
  Forall (fun m => size_of (mem_data m) <= to_guint (mem_size m)) buf
  /\ (fixed_size_kind (media src) = true ->
      map mem_size buf = [media_size src]).
Proof.
  unfold gst_data_repo_src_create. intros Hi Hc.
  destruct (media src) eqn:Hm; try discriminate.
  1-4: apply read_others_stores in Hc as (added & Hsz & _ & _ & Hb);
       destruct Hb as [[Hb _]|[_ Hb]]; [discriminate|];
       injection Hb as ->; split; [repeat constructor; exact Hsz|reflexivity].
  apply read_tensors_stores in Hc as (first & second & H0 & H1 & _ & _ & Hb).
  destruct Hb as [[Hb _]|[_ Hb]]; [discriminate|].
  injection Hb as ->. split; [repeat constructor; assumption|discriminate].
Qed.

Lemma create_stays_within_allocation_witness :
  Forall (fun m => size_of (mem_data m) <= to_guint (mem_size m))
    (tail_record 4 six_bytes 4)
  /\ (fixed_size_kind (media (fst video_next)) = true ->
      map mem_size (tail_record 4 six_bytes 4) = [media_size (fst video_next)]).
Proof.
  apply (create_stays_within_allocation printf_index (fst video_next)
           (snd video_next) GST_FLOW_OK (tail_record 4 six_bytes 4)
           (fst (next (fst video_next) (snd video_next)))
           (snd (next (fst video_next) (snd video_next)))).
  - reflexivity.
  - reflexivity.
Defined.

(** X3: configuration is fixed while streaming.  In any world and for
    every kind, [create] leaves the state, the file name, the descriptor,
    the media type, the record and segment sizes and the two frame bounds
    of the element as they were. *)
Theorem create_keeps_configuration
    (fmt : string -> Z -> string) (src : GstDataRepoSrc) (w : World)
    (r : GstFlowReturn) (b : option GstBuffer)
    (src' : GstDataRepoSrc) (w' : World) :
  gst_data_repo_src_create fmt src w = Some (r, b, src', w') ->
  same_configuration src src'.
Proof.
  intros Hc. unfold same_configuration.
  destruct (is_image (media src)) eqn:Hi.
  - assert (Hm : media src = _NNS_IMAGE)
      by (destruct (media src); now try discriminate).
    unfold gst_data_repo_src_create, gst_data_repo_src_read_multi_images in Hc.
    rewrite Hm in Hc.
    destruct (g_file_get_contents w _) as [[data|] w1].
    + injection Hc as _ _ <- _. simpl. tauto.
    + destruct (successful_read src); injection Hc as _ _ <- _; tauto.
  - assert (moved src src' \/ src' = src) as [(rp & off & ->)| ->];
      [|simpl; tauto|tauto].
    unfold gst_data_repo_src_create in Hc.
    destruct (media src); try discriminate;
      try (injection Hc as _ _ <- _; now right);
      left; eauto using read_others_moved, read_tensors_moved.
Qed.

Lemma create_keeps_configuration_witness :
  same_configuration pair_src (fst (next pair_src pair_world)).
Proof.
  apply (create_keeps_configuration printf_index pair_src pair_world
           GST_FLOW_OK
           (Some (tensor_tail_record 4 2 five_bytes 0))
           (fst (next pair_src pair_world)) (snd (next pair_src pair_world))).
  reflexivity.
Defined.

(** ** Reads that fail *)

Lemma read_loop_hard_error before :
  forall fuel src w data b n f e evs,
    0 < n ->
    lookup_fd (fd src) (w_fds w) = Some f ->
    w_events w = before ++ ReadFails e :: evs ->
    forallb interruption before = true ->
    errno_retry e = false ->
    (length before < fuel)%nat ->
    exists w',
      read_loop fuel src w data b n = Some (goto_could_not_read, src, w', data)
      /\ w_events w' = evs /\ w_fds w' = w_fds w.
Proof.
  induction before as [|ev before IH];
    intros fuel src w data b n f e evs Hn Hl Hev Hb He Hf;
    (destruct fuel as [|fuel]; [simpl in Hf; lia|]);
    simpl; replace (0 <? n) with true by (symmetry; apply Z.ltb_lt; lia);
    unfold read; rewrite Hl, Hev; simpl.
  - rewrite He. eexists. split; [reflexivity|]. simpl. auto.
  - simpl in Hb. apply andb_prop in Hb as [Hi Hb].
    destruct ev as [e0|k]; [|discriminate]. simpl in Hi. rewrite Hi.
    destruct (IH fuel src
                (with_events (log (call_read (fd src) n) w)
                   (before ++ ReadFails e :: evs))
                data b n f e evs)
      as (w' & E & H1 & H2); simpl; auto; [simpl in Hf; lia|].
    exists w'. auto.
Qed.

(** X4: a lasting read error.  When, after any number of interruptions
    ([EINTR], [EAGAIN]), the [read] of the first segment of a record
    fails with another [errno], [create] returns [GST_FLOW_ERROR] without
    a buffer and with the element unchanged; the interruptions before it
    were retried and are used up. *)
Theorem create_fails_on_read_error
    (fmt : string -> Z -> string) (src : GstDataRepoSrc) (w : World)
    (f : open_file) (before : list read_event) (e : errno_t)
    (evs : list read_event) :
  (fixed_size_kind (media src) = true /\ 0 < to_guint (media_size src)
   \/ media src = _NNS_TENSOR /\ 0 < to_guint (nth 0 (tensors_size src) 0)) ->
  lookup_fd (fd src) (w_fds w) = Some f ->
  w_events w = before ++ ReadFails e :: evs ->
  forallb interruption before = true ->
  errno_retry e = false ->
  exists w',
    gst_data_repo_src_create fmt src w = Some (GST_FLOW_ERROR, None, src, w')
    /\ w_events w' = evs /\ w_fds w' = w_fds w.
Proof.
  intros Hk Hl Hev Hb He.
  assert (Hf : forall n, (length before < loop_fuel w n)%nat).
  { intros n. unfold loop_fuel. rewrite Hev, length_app. simpl. lia. }
  destruct Hk as [[Hk Hn]|[Hm Hn]].
  - rewrite create_fixed_size by assumption.
    unfold gst_data_repo_src_read_others.
    destruct (read_loop_hard_error before (loop_fuel w (to_guint (media_size src)))
                src w [] 0 (to_guint (media_size src)) f e evs)
      as (w' & E & H1 & H2); auto.
    rewrite E. eauto.
  - unfold gst_data_repo_src_create. rewrite Hm.
    unfold gst_data_repo_src_read_tensors. cbn [seq read_tensors_for].
    destruct (read_loop_hard_error before
                (loop_fuel w (to_guint (nth 0 (tensors_size src) 0)))
                src w [] 0 (to_guint (nth 0 (tensors_size src) 0)) f e evs)
      as (w' & E & H1 & H2); auto.
    rewrite E. eauto.
Qed.

Lemma create_fails_on_read_error_witness :
  exists w',
    gst_data_repo_src_create printf_index video_src failing_world
    = Some (GST_FLOW_ERROR, None, video_src, w')
    /\ w_events w' = [] /\ w_fds w' = w_fds failing_world.
Proof.
  apply (create_fails_on_read_error printf_index video_src failing_world
           {| of_node := regular_file six_bytes; of_pos := 0 |}
           [ReadFails EINTR] EIO []).
  - left. split; reflexivity.
  - reflexivity.
  - reflexivity.
  - reflexivity.
  - reflexivity.
Defined.

Lemma read_without_descriptor w d n :
  lookup_fd d (w_fds w) = None ->
  read w d n = (inl EBADF, log (call_read d n) w).
Proof. intros H. unfold read. now rewrite H. Qed.

(** X5: no open descriptor.  When the descriptor of the element is not
    open, as after a [start] that could not open its file, a [create]
    that wants bytes returns [GST_FLOW_ERROR] on its first [read],
    without a buffer and with the element unchanged. *)
Theorem create_fails_without_descriptor
    (fmt : string -> Z -> string) (src : GstDataRepoSrc) (w : World) :
  (fixed_size_kind (media src) = true /\ 0 < to_guint (media_size src)
   \/ media src = _NNS_TENSOR /\ 0 < to_guint (nth 0 (tensors_size src) 0)) ->
  lookup_fd (fd src) (w_fds w) = None ->
  gst_data_repo_src_create fmt src w
  = Some (GST_FLOW_ERROR, None, src,
          log (call_read (fd src)
                 (if fixed_size_kind (media src)
                  then to_guint (media_size src)
                  else to_guint (nth 0 (tensors_size src) 0))) w).
Proof.
  intros Hk Hl. destruct Hk as [[Hk Hn]|[Hm Hn]].
  - rewrite create_fixed_size, Hk by assumption.
    unfold gst_data_repo_src_read_others, loop_fuel. cbn [read_loop].
    replace (0 <? to_guint (media_size src)) with true
      by (symmetry; apply Z.ltb_lt; lia).
    rewrite read_without_descriptor by assumption. reflexivity.
  - unfold gst_data_repo_src_create. rewrite Hm. cbn [fixed_size_kind].
    unfold gst_data_repo_src_read_tensors. cbn [seq read_tensors_for].
    unfold loop_fuel. cbn [read_loop].
    replace (0 <? to_guint (nth 0 (tensors_size src) 0)) with true
      by (symmetry; apply Z.ltb_lt; lia).
    rewrite read_without_descriptor by assumption. reflexivity.
Qed.

Lemma create_fails_without_descriptor_witness :
  fd unopened_src = -1
  /\ gst_data_repo_src_create printf_index unopened_src (world_of [])
     = Some (GST_FLOW_ERROR, None, unopened_src,
             log (call_read (-1) 3176) (world_of [])).
Proof.
  split; [reflexivity|].
  apply (create_fails_without_descriptor printf_index unopened_src (world_of [])).
  - left. split; reflexivity.
  - reflexivity.
Defined.

(** ** Resolution, entry by entry *)

Lemma array_set_nth_other a :
  forall i j v, i <> j -> nth j (array_set a i v) 0 = nth j a 0.
Proof.
  induction a as [|x a IH]; intros [|i] [|j] v H; simpl; auto; try lia.
Qed.

Lemma array_set_nth_same a :
  forall i v, (i < length a)%nat -> nth i (array_set a i v) 0 = v.
Proof.
  induction a as [|x a IH]; intros [|i] v H; simpl in *; auto; try lia.
  apply IH. lia.
Qed.

Lemma tensors_size_loop_entries info :
  forall i sizes size,
    length (fst (tensors_size_loop i info sizes size)) = length sizes
    /\ (forall j, (j < i \/ i + length info <= j)%nat ->
          nth j (fst (tensors_size_loop i info sizes size)) 0 = nth j sizes 0)
    /\ (forall k x, nth_error info k = Some x ->
          (i + k < length sizes)%nat ->
          nth (i + k) (fst (tensors_size_loop i info sizes size)) 0
          = to_guint (gst_tensor_info_get_size x)).
Proof.
  induction info as [|y info IH]; intros i sizes size; simpl.
  - repeat split; auto. intros [|k] x; discriminate.
  - destruct (IH (S i) (array_set sizes i (to_guint (gst_tensor_info_get_size y)))
                (to_guint (size + to_guint (gst_tensor_info_get_size y))))
      as (Hl & Ho & Hk).
    rewrite array_set_length in *. repeat split; auto.
    + intros j Hj. rewrite Ho by lia. apply array_set_nth_other. lia.
    + intros [|k] x Hx Hb; simpl in Hx.
      * injection Hx as <-. rewrite Nat.add_0_r in *.
        rewrite Ho by lia. now apply array_set_nth_same.
      * replace (i + S k)%nat with (S i + k)%nat in * by lia. now apply Hk.
Qed.

(** X6: what resolution writes.  Resolving a tensors descriptor of [N]
    components keeps the length of [tensors_size] and every entry from
    index [N] on, so sizes of an earlier, longer descriptor stay; when the
    descriptor is accepted, entry [k] below [N] becomes the size of
    component [k] modulo 2^32. *)
Theorem get_tensors_size_entries
    (MAX_ITEM : nat) (src : GstDataRepoSrc) (d : list GstTensorInfo) :
  let src' := snd (gst_data_repo_src_get_tensors_size MAX_ITEM src d) in
  length (tensors_size src') = length (tensors_size src)
  /\ (forall j, (length d <= j)%nat ->
        nth j (tensors_size src') 0 = nth j (tensors_size src) 0)
  /\ (forall k x,
        gst_tensors_config_from_structure MAX_ITEM d = inr d ->
        nth_error d k = Some x ->
        (k < length (tensors_size src))%nat ->
        nth k (tensors_size src') 0 = to_guint (gst_tensor_info_get_size x)).
Proof.
  unfold gst_data_repo_src_get_tensors_size.
  destruct (gst_tensors_config_from_structure MAX_ITEM d) as [e|config] eqn:E.
  - simpl. repeat split; auto. discriminate.
  - assert (config = d).
    { unfold gst_tensors_config_from_structure in E.
      destruct (_ <? _)%nat; [discriminate|].
      destruct (forallb shape_ok d); now inversion E. }
    subst config.
    destruct (tensors_size_loop_entries d 0 (tensors_size src) 0)
      as (Hl & Ho & Hk).
    destruct (tensors_size_loop 0 d (tensors_size src) 0) as [sizes size].
    simpl in *. split; [exact Hl|]. split.
    + intros j Hj. apply Ho. lia.
    + intros k x _ Hx Hb. now apply (Hk k x).
Qed.

(** After [pair_42] (sizes 4 and 2), a descriptor of one tensor of seven
    bytes: the second size is still 2. *)
Lemma get_tensors_size_entries_witness :
  nth 1 (tensors_size resolved_again) 0 = nth 1 (tensors_size resolved_pair) 0
  /\ nth 0 (tensors_size resolved_again) 0
     = to_guint (gst_tensor_info_get_size (bytes_tensor 7)).
Proof.
  split.
  - apply (proj1 (proj2 (get_tensors_size_entries 16 resolved_pair
                           [bytes_tensor 7])) 1%nat).
    simpl. lia.
  - apply (proj2 (proj2 (get_tensors_size_entries 16 resolved_pair
                           [bytes_tensor 7])) 0%nat (bytes_tensor 7)).
    + reflexivity.
    + reflexivity.
    + apply Nat.ltb_lt. reflexivity.
Defined.

Lemma tensors_size_loop_total info :
  forall i sizes size,
    0 <= size < 2 ^ 32 ->
    0 <= snd (tensors_size_loop i info sizes size) < 2 ^ 32.
Proof.
  induction info as [|y info IH]; intros i sizes size H; simpl; [exact H|].
  apply IH, to_guint_range.
Qed.

(** X7: what negotiation leaves behind.  When [set_caps] accepts the caps,
    the record size is a non-zero [guint] and the media type is the one
    the caps name, never text; when it refuses them, the record size is
    the one from before. *)
Theorem set_caps_record_size
    (MAX_ITEM : nat) (src : GstDataRepoSrc) (caps : GstCaps)
    (src' : GstDataRepoSrc) :
  (gst_data_repo_src_set_caps MAX_ITEM src caps = (true, src') ->
   0 < media_size src' < 2 ^ 32
   /\ media_of_caps caps = Some (media src')
   /\ media src' <> _NNS_TEXT)
  /\ (gst_data_repo_src_set_caps MAX_ITEM src caps = (false, src') ->
      media_size src' = media_size src).
Proof.
  unfold gst_data_repo_src_set_caps, gst_data_repo_src_get_media_info.
  assert (Hs : forall s size m,
             0 <= size < 2 ^ 32 ->
             ((if size =? 0 then (false, s) else (true, set_media_size s size))
              = (true, src') ->
              media s = m -> m <> _NNS_TEXT ->
              0 < media_size src' < 2 ^ 32 /\ Some m = Some (media src')
              /\ media src' <> _NNS_TEXT)
             /\ ((if size =? 0 then (false, s) else (true, set_media_size s size))
                 = (false, src') -> media_size src' = media_size s)).
  { intros s size m Hr. destruct (Z.eqb_spec size 0); split;
      try discriminate; intros [= <-]; simpl; auto.
    intros <- Hm. repeat split; auto; lia. }
  destruct caps; simpl.
  - unfold gst_data_repo_src_get_tensors_size.
    destruct (gst_tensors_config_from_structure MAX_ITEM s) as [e|config].
    + simpl. split; [discriminate|]. now intros [= <-].
    + pose proof (tensors_size_loop_total config 0 (tensors_size src) 0
                    ltac:(lia)) as Hr.
      destruct (tensors_size_loop 0 config (tensors_size src) 0)
        as [sizes size]. simpl in Hr.
      destruct (Hs (set_media (set_tensors_size src sizes) _NNS_TENSOR) size
                  _NNS_TENSOR Hr) as [H1 H2].
      split; [intros H; apply H1; auto; discriminate|exact H2].
  - destruct (Hs (set_media src _NNS_VIDEO)
                (gst_data_repo_src_get_video_size info_size) _NNS_VIDEO
                (to_guint_range _)) as [H1 H2].
    split; [intros H; apply H1; auto; discriminate|exact H2].
  - destruct (Hs (set_media src _NNS_AUDIO)
                (gst_data_repo_src_get_audio_size rate channel depth) _NNS_AUDIO
                (to_guint_range _)) as [H1 H2].
    split; [intros H; apply H1; auto; discriminate|exact H2].
  - split; [discriminate|]. now intros [= <-].
  - split; intros [= <-]; simpl; repeat split; try lia; discriminate.
  - split; intros [= <-]; simpl; repeat split; try lia; discriminate.
  - split; [discriminate|]. now intros [= <-].
Qed.

Lemma set_caps_record_size_witness :
  (0 < media_size resolved_pair < 2 ^ 32
   /\ media_of_caps (other_tensors pair_42) = Some (media resolved_pair)
   /\ media resolved_pair <> _NNS_TEXT)
  /\ media_size (set_media located_src _NNS_TEXT) = media_size located_src.
Proof.
  split.
  - apply (proj1 (set_caps_record_size 16 located_src (other_tensors pair_42)
                    resolved_pair)).
    reflexivity.
  - apply (proj2 (set_caps_record_size 16 located_src text_x_raw
                    (set_media located_src _NNS_TEXT))).
    reflexivity.
Defined.

(** X8: the location property.  Reading the location back after setting
    it gives the new value when the element is in READY or NULL, and the
    old one in every other state; nothing else in the element changes. *)
Theorem location_round_trip (src : GstDataRepoSrc) (l : option string) :
  gst_data_repo_src_get_property (gst_data_repo_src_set_property src l)
  = (if location_settable (state src) then l else filename src)
  /\ gst_data_repo_src_set_property src l
     = set_filename src
         (gst_data_repo_src_get_property (gst_data_repo_src_set_property src l)).
Proof.
  unfold gst_data_repo_src_get_property, gst_data_repo_src_set_property,
    gst_data_repo_src_set_location.
  destruct src as [st fn d m o rp sr fi sfi efi ms ts]. simpl.
  destruct st; simpl; auto; destruct l; auto.
Qed.

(** ** Opening and closing *)

Lemma lookup_fd_in d f t : lookup_fd d t = Some f -> In (d, f) t.
Proof.
  induction t as [|[k g] t IH]; simpl; [discriminate|].
  destruct (Z.eqb_spec k d) as [->|_]; [intros [= ->]; auto|auto].
Qed.

Lemma lookup_fresh_fd t : lookup_fd (fresh_fd t) t = None.
Proof.
  destruct (lookup_fd (fresh_fd t) t) as [f|] eqn:E; [|reflexivity].
  apply lookup_fd_in, fresh_fd_above in E. simpl in E. lia.
Qed.

Lemma lookup_remove_same d t : lookup_fd d (remove_fd d t) = None.
Proof.
  induction t as [|[k g] t IH]; simpl; [reflexivity|].
  destruct (k =? d) eqn:E; [exact IH|]. simpl. now rewrite E.
Qed.

Lemma lookup_remove_other d d' t :
  d' <> d -> lookup_fd d' (remove_fd d t) = lookup_fd d' t.
Proof.
  intros H. induction t as [|[k g] t IH]; simpl; [reflexivity|].
  destruct (Z.eqb_spec k d) as [->|_]; simpl.
  - destruct (Z.eqb_spec d d'); [congruence|exact IH].
  - now rewrite IH.
Qed.

(** The common part of a [start] that gets as far as [fstat]. *)
Lemma start_opened fmt src w f node :
  filename src = Some f -> f <> EmptyString ->
  w_path w (start_name fmt src f) = inr node ->
  gst_data_repo_src_start fmt src w
  = let d := fresh_fd (w_fds w) in
    let src2 := set_fd (set_frame_index src (start_frame_index src)) d in
    let w2 :=
      log (call_fstat d)
        (with_fds (log (call_open (start_name fmt src f)) w)
           ((d, {| of_node := node; of_pos := 0 |}) :: w_fds w)) in
    match i_stat node with
    | Some S_IFREG =>
        if is_image (media src)
        then (true, set_fd (set_read_position src2 0) 0, g_close w2 d)
        else (true, set_read_position src2 0, w2)
    | _ => error_close src2 w2
    end.
Proof.
  intros Hf Hne Hnode.
  unfold gst_data_repo_src_start. rewrite Hf.
  destruct f as [|c f]; [congruence|]. cbn [string_is_empty].
  set (src1 := set_frame_index src (start_frame_index src)).
  assert (Hn : match media src1 with
               | _NNS_IMAGE => gst_data_repo_src_get_image_filename fmt src1
               | _ => Some (String c f)
               end = Some (start_name fmt src (String c f))).
  { unfold start_name, gst_data_repo_src_get_image_filename, src1. simpl.
    rewrite Hf. now destruct (media src). }
  rewrite Hn. unfold g_open. rewrite Hnode.
  set (d := fresh_fd (w_fds w)).
  replace (d <? 0) with false
    by (symmetry; apply Z.ltb_ge; pose proof (fresh_fd_positive (w_fds w));
        unfold d; lia).
  unfold fstat. cbn [with_fds log w_fds lookup_fd]. rewrite Z.eqb_refl.
  cbn [of_node]. cbv zeta.
  destruct (i_stat node) as [[]|]; try reflexivity.
  simpl. now destruct (media src).
Qed.

(** X9: a successful start, every kind but images.  When the file name
    leads to a regular file, [start] returns TRUE with the element's
    descriptor a new one, open on that file at offset 0 and not in use
    before, every other descriptor untouched; [read_position] is 0 and
    [frame_index] is the start index; the calls made are one [open] and
    one [fstat]. *)
Theorem start_opens_regular_file
    (fmt : string -> Z -> string) (src : GstDataRepoSrc) (w : World)
    (f : string) (node : inode) :
  filename src = Some f -> f <> EmptyString ->
  is_image (media src) = false ->
  w_path w f = inr node ->
  i_stat node = Some S_IFREG ->
  forallb transient (w_events w) = true ->
  exists src' w',
    gst_data_repo_src_start fmt src w = (true, src', w')
    /\ fd src' = fresh_fd (w_fds w)
    /\ read_position src' = 0
    /\ frame_index src' = start_frame_index src
    /\ reading w' (fd src') (i_data node) 0
    /\ lookup_fd (fd src') (w_fds w) = None
    /\ (forall d, d <> fd src' -> lookup_fd d (w_fds w') = lookup_fd d (w_fds w))
    /\ w_trace w'
       = [call_fstat (fresh_fd (w_fds w)); call_open f] ++ w_trace w.
Proof.
  intros Hf Hne Hi Hnode Hst Hev.
  rewrite (start_opened fmt src w f node Hf Hne)
    by (unfold start_name; now rewrite Hi).
  unfold start_name. rewrite Hst, Hi. cbv zeta.
  do 2 eexists. split; [reflexivity|]. simpl.
  repeat split; auto using lookup_fresh_fd.
  - exists (Some S_IFREG). simpl. rewrite Z.eqb_refl. destruct node.
    simpl in *. now subst.
  - intros d Hd. destruct (Z.eqb_spec (fresh_fd (w_fds w)) d); [congruence|].
    reflexivity.
Qed.

Lemma start_opens_regular_file_witness :
  exists src' w',
    gst_data_repo_src_start printf_index video_ready_src video_files
    = (true, src', w')
    /\ fd src' = fresh_fd (w_fds video_files)
    /\ read_position src' = 0
    /\ frame_index src' = start_frame_index video_ready_src
    /\ reading w' (fd src') (i_data (regular_file six_bytes)) 0
    /\ lookup_fd (fd src') (w_fds video_files) = None
    /\ (forall d, d <> fd src' ->
          lookup_fd d (w_fds w') = lookup_fd d (w_fds video_files))
    /\ w_trace w'
       = [call_fstat (fresh_fd (w_fds video_files)); call_open "f.dat"]
         ++ w_trace video_files.
Proof.
  apply (start_opens_regular_file printf_index video_ready_src video_files
           "f.dat"%string (regular_file six_bytes)).
  - reflexivity.
  - discriminate.
  - reflexivity.
  - reflexivity.
  - reflexivity.
  - reflexivity.
Defined.

(** X10: a successful start for images.  When the pattern filled with the
    start index leads to a regular file, [start] returns TRUE, closes the
    descriptor it opened, so that the descriptors open are those from
    before, sets [fd] to 0 and [frame_index] to the start index, and
    keeps [successful_read]. *)
Theorem start_image_keeps_no_descriptor
    (fmt : string -> Z -> string) (src : GstDataRepoSrc) (w : World)
    (f : string) (node : inode) :
  filename src = Some f -> f <> EmptyString ->
  media src = _NNS_IMAGE ->
  w_path w (fmt f (start_frame_index src)) = inr node ->
  i_stat node = Some S_IFREG ->
  exists src',
    gst_data_repo_src_start fmt src w
    = (true, src',
       {| w_path := w_path w; w_fds := w_fds w; w_events := w_events w;
          w_trace :=
            [call_close (fresh_fd (w_fds w)); call_fstat (fresh_fd (w_fds w));
             call_open (fmt f (start_frame_index src))] ++ w_trace w |})
    /\ fd src' = 0
    /\ frame_index src' = start_frame_index src
    /\ successful_read src' = successful_read src.
Proof.
  intros Hf Hne Hm Hnode Hst.
  rewrite (start_opened fmt src w f node Hf Hne)
    by (unfold start_name; now rewrite Hm).
  unfold start_name. rewrite Hst, Hm. cbv zeta. cbn [is_image].
  eexists. split.
  - unfold g_close, with_fds, log. cbn [w_fds w_path w_events w_trace].
    now rewrite remove_fresh_fd.
  - simpl. auto.
Qed.

Lemma start_image_keeps_no_descriptor_witness :
  exists src',
    gst_data_repo_src_start printf_index image_ready_src image_files
    = (true, src',
       {| w_path := w_path image_files; w_fds := w_fds image_files;
          w_events := w_events image_files;
          w_trace :=
            [call_close (fresh_fd (w_fds image_files));
             call_fstat (fresh_fd (w_fds image_files));
             call_open (printf_index "img%d.png"
                          (start_frame_index image_ready_src))]
            ++ w_trace image_files |})
    /\ fd src' = 0
    /\ frame_index src' = start_frame_index image_ready_src
    /\ successful_read src' = successful_read image_ready_src.
Proof.
  apply (start_image_keeps_no_descriptor printf_index image_ready_src
           image_files "img%d.png"%string (regular_file png_bytes)).
  - reflexivity.
  - discriminate.
  - reflexivity.
  - reflexivity.
  - reflexivity.
Defined.

(** X11: a file that cannot be opened.  When [g_open] fails, [start]
    returns FALSE after that single call, no descriptor is opened, and
    [fd] is left at the failed result, -1. *)
Theorem start_open_failure
    (fmt : string -> Z -> string) (src : GstDataRepoSrc) (w : World)
    (f : string) (e : errno_t) :
  filename src = Some f -> f <> EmptyString ->
  w_path w (start_name fmt src f) = inl e ->
  gst_data_repo_src_start fmt src w
  = (false, set_fd (set_frame_index src (start_frame_index src)) (-1),
     log (call_open (start_name fmt src f)) w).
Proof.
  intros Hf Hne Hpath.
  unfold gst_data_repo_src_start. rewrite Hf.
  destruct f as [|c f]; [congruence|]. cbn [string_is_empty].
  set (src1 := set_frame_index src (start_frame_index src)).
  assert (Hn : match media src1 with
               | _NNS_IMAGE => gst_data_repo_src_get_image_filename fmt src1
               | _ => Some (String c f)
               end = Some (start_name fmt src (String c f))).
  { unfold start_name, gst_data_repo_src_get_image_filename, src1. simpl.
    rewrite Hf. now destruct (media src). }
  rewrite Hn. unfold g_open. now rewrite Hpath.
Qed.

Lemma start_open_failure_witness :
  gst_data_repo_src_start printf_index video_ready_src (world_of [])
  = (false,
     set_fd (set_frame_index video_ready_src
               (start_frame_index video_ready_src)) (-1),
     log (call_open (start_name printf_index video_ready_src "f.dat"))
       (world_of [])).
Proof.
  apply (start_open_failure printf_index video_ready_src (world_of [])
           "f.dat"%string ENOENT).
  - reflexivity.
  - discriminate.
  - reflexivity.
Defined.

(** X12: start, then stop.  After a successful [start] on a regular file
    (every kind but images), [stop] returns TRUE, closes the descriptor
    that [start] opened and sets [fd] to 0: the descriptors open are
    those from before [start]. *)
Theorem start_then_stop_restores_descriptors
    (fmt : string -> Z -> string) (src : GstDataRepoSrc) (w : World)
    (f : string) (node : inode) :
  filename src = Some f -> f <> EmptyString ->
  is_image (media src) = false ->
  w_path w f = inr node ->
  i_stat node = Some S_IFREG ->
  let started := gst_data_repo_src_start fmt src w in
  let stopped := gst_data_repo_src_stop (snd (fst started)) (snd started) in
  fst (fst started) = true
  /\ fst (fst stopped) = true
  /\ fd (snd (fst stopped)) = 0
  /\ w_fds (snd stopped) = w_fds w
  /\ w_trace (snd stopped)
     = [call_close (fresh_fd (w_fds w)); call_fstat (fresh_fd (w_fds w));
        call_open f] ++ w_trace w.
Proof.
  intros Hf Hne Hi Hnode Hst started stopped. unfold stopped, started.
  rewrite (start_opened fmt src w f node Hf Hne)
    by (unfold start_name; now rewrite Hi).
  unfold start_name. rewrite Hst, Hi. cbv zeta.
  unfold gst_data_repo_src_stop, g_close, with_fds, log. simpl.
  rewrite Z.eqb_refl.
  rewrite remove_fd_absent by apply fresh_fd_above. auto.
Qed.

Lemma start_then_stop_restores_descriptors_witness :
  let started :=
    gst_data_repo_src_start printf_index video_ready_src video_files in
  let stopped := gst_data_repo_src_stop (snd (fst started)) (snd started) in
  fst (fst started) = true
  /\ fst (fst stopped) = true
  /\ fd (snd (fst stopped)) = 0
  /\ w_fds (snd stopped) = w_fds video_files
  /\ w_trace (snd stopped)
     = [call_close (fresh_fd (w_fds video_files));
        call_fstat (fresh_fd (w_fds video_files)); call_open "f.dat"]
       ++ w_trace video_files.
Proof.
  apply (start_then_stop_restores_descriptors printf_index video_ready_src
           video_files "f.dat"%string (regular_file six_bytes)).
  - reflexivity.
  - discriminate.
  - reflexivity.
  - reflexivity.
  - reflexivity.
Defined.

(** X13: what stop closes.  [stop] always returns TRUE and sets [fd] to 0;
    the descriptor it closes is the one in [fd], every other descriptor
    stays as it is.  After a successful [start] of an image sequence that
    descriptor is 0: [stop] then closes descriptor 0, whatever was open
    on it. *)
Theorem stop_closes_descriptor_in_fd
    (fmt : string -> Z -> string) (src : GstDataRepoSrc) (w : World) :
  (fst (fst (gst_data_repo_src_stop src w)) = true
   /\ fd (snd (fst (gst_data_repo_src_stop src w))) = 0
   /\ lookup_fd (fd src) (w_fds (snd (gst_data_repo_src_stop src w))) = None
   /\ (forall d, d <> fd src ->
         lookup_fd d (w_fds (snd (gst_data_repo_src_stop src w)))
         = lookup_fd d (w_fds w)))
  /\ (forall f node,
         filename src = Some f -> f <> EmptyString ->
         media src = _NNS_IMAGE ->
         w_path w (fmt f (start_frame_index src)) = inr node ->
         i_stat node = Some S_IFREG ->
         let started := gst_data_repo_src_start fmt src w in
         let stopped :=
           gst_data_repo_src_stop (snd (fst started)) (snd started) in
         fst (fst started) = true
         /\ lookup_fd 0 (w_fds (snd stopped)) = None
         /\ exists rest, w_trace (snd stopped) = call_close 0 :: rest).
Proof.
  split.
  - unfold gst_data_repo_src_stop, g_close. simpl.
    repeat split; auto using lookup_remove_same.
    intros d Hd. now apply lookup_remove_other.
  - intros f node Hf Hne Hm Hnode Hst started stopped.
    unfold stopped, started.
    rewrite (start_opened fmt src w f node Hf Hne)
      by (unfold start_name; now rewrite Hm).
    unfold start_name. rewrite Hst, Hm. cbv zeta. cbn [is_image].
    unfold gst_data_repo_src_stop, g_close. simpl.
    repeat split; eauto using lookup_remove_same.
Qed.

(** Descriptor 0 is open on the terminal when the image sequence starts;
    after [start] and [stop] it is closed. *)
Lemma stop_closes_descriptor_in_fd_witness :
  lookup_fd 0 (w_fds terminal_world) <> None
  /\ let started :=
       gst_data_repo_src_start printf_index image_ready_src terminal_world in
     let stopped := gst_data_repo_src_stop (snd (fst started)) (snd started) in
     fst (fst started) = true
     /\ lookup_fd 0 (w_fds (snd stopped)) = None
     /\ exists rest, w_trace (snd stopped) = call_close 0 :: rest.
Proof.
  split; [discriminate|].
  apply (proj2 (stop_closes_descriptor_in_fd printf_index image_ready_src
                  terminal_world)
           "img%d.png"%string (regular_file png_bytes)).
  - reflexivity.
  - discriminate.
  - reflexivity.
  - reflexivity.
  - reflexivity.
Defined.

(** ** Whole streams *)

(** One call of [gst_data_repo_src_read_tensors], with where it leaves
    the file: it has taken [min rest (a + b)] bytes, also when the record
    is given up. *)
Lemma read_tensors_position src w bytes pos a b :
  nth 0 (tensors_size src) 0 = a -> nth 1 (tensors_size src) 0 = b ->
  0 < a < 2 ^ 32 -> 0 < b < 2 ^ 32 ->
  reading w (fd src) bytes pos -> 0 <= pos <= size_of bytes ->
  let rest := size_of bytes - pos in
  exists src' w',
    gst_data_repo_src_read_tensors src w
    = Some (if rest <=? a then GST_FLOW_EOS else GST_FLOW_OK,
            if rest <=? a then None
            else Some [{| mem_size := a; mem_data := sub_bytes pos a bytes |};
                       {| mem_size := b;
                          mem_data := sub_bytes (pos + a) (Z.min b (rest - a)) bytes |}],
            src', w')
    /\ reading w' (fd src) bytes (pos + Z.min rest (a + b))
    /\ moved src src'.
Proof.
  intros Ha Hb Har Hbr Hr Hpos rest.
  unfold gst_data_repo_src_read_tensors. cbn [seq read_tensors_for].
  rewrite Ha, (to_guint_small a) by lia.
  destruct (read_loop_reading (loop_fuel w a) src w [] 0 a bytes pos)
    as (src1 & w1 & E & Hr1 & Hm1); auto using loop_fuel_enough; try lia.
  rewrite E. clear E. fold rest in Hr1 |- *.
  replace (0 <? a) with true by (symmetry; apply Z.ltb_lt; lia).
  cbn [andb Z.add app].
  destruct (Z.eqb_spec (Z.min a rest) 0) as [H0|H0].
  { replace (rest <=? a) with true by (symmetry; apply Z.leb_le; lia).
    replace (pos + Z.min rest (a + b)) with (pos + Z.min a rest) by lia.
    eauto. }
  destruct (moved_fields _ _ Hm1) as (Hfd & _ & _ & Hts & _).
  rewrite Hts, Hb, (to_guint_small b) by lia.
  rewrite <- Hfd in Hr1.
  destruct (read_loop_reading (loop_fuel w1 b) src1 w1 [] 0 b bytes
              (pos + Z.min a rest))
    as (src2 & w2 & E & Hr2 & Hm2); auto using loop_fuel_enough;
    try (unfold rest in *; lia).
  rewrite E. clear E.
  replace (0 <? b) with true by (symmetry; apply Z.ltb_lt; lia).
  cbn [andb Z.add app].
  rewrite Hfd in Hr2.
  replace (pos + Z.min a rest + Z.min b (size_of bytes - (pos + Z.min a rest)))
    with (pos + Z.min rest (a + b)) in Hr2 by (unfold rest in *; lia).
  assert (Hm : moved src src2) by (eapply moved_trans; eauto).
  destruct (Z.leb_spec rest a) as [Hle|Hgt].
  - replace (Z.min b (size_of bytes - (pos + Z.min a rest)) =? 0) with true
      by (symmetry; apply Z.eqb_eq; unfold rest in *; lia).
    eauto.
  - replace (Z.min b (size_of bytes - (pos + Z.min a rest)) =? 0) with false
      by (symmetry; apply Z.eqb_neq; unfold rest in *; lia).
    replace (Z.min a rest) with a by lia.
    replace (size_of bytes - (pos + a)) with (rest - a) by (unfold rest; lia).
    eauto.
Qed.

Lemma stream_tensors fmt bytes a b (q : nat) :
  forall src w pos r calls,
    media src = _NNS_TENSOR ->
    nth 0 (tensors_size src) 0 = a -> nth 1 (tensors_size src) 0 = b ->
    0 < a < 2 ^ 32 -> 0 < b < 2 ^ 32 ->
    reading w (fd src) bytes pos ->
    0 <= pos ->
    size_of bytes - pos = Z.of_nat q * (a + b) + r ->
    0 <= r < a + b ->
    (q + 2 <= calls)%nat ->
    stream (gst_data_repo_src_create fmt) calls src w
    = Some (map (fun i => tensor_record a b bytes (pos + Z.of_nat i * (a + b)))
              (seq 0 q)
            ++ (if r <=? a then []
                else [tensor_tail_record a b bytes (pos + Z.of_nat q * (a + b))]),
            Some GST_FLOW_EOS).
Proof.
  induction q as [|q IH];
    intros src w pos r calls Hk Ha Hb Har Hbr Hr Hpos Hsz Hrr Hc;
    (destruct calls as [|calls]; [lia|]); simpl stream;
    unfold gst_data_repo_src_create at 1; rewrite Hk.
  - destruct (read_tensors_position src w bytes pos a b Ha Hb Har Hbr Hr
                ltac:(lia))
      as (src1 & w1 & E & Hr1 & Hm1).
    rewrite E. clear E.
    destruct (moved_fields _ _ Hm1) as (Hfd & Hme & _ & Hts & _).
    rewrite <- Hfd in Hr1.
    assert (Hs : size_of bytes = pos + r) by lia.
    replace (size_of bytes - pos) with r in * by lia.
    destruct (Z.leb_spec r a) as [Hle|Hgt]; [reflexivity|].
    destruct calls as [|calls]; [lia|]. simpl stream.
    unfold gst_data_repo_src_create at 1. rewrite Hme, Hk.
    destruct (read_tensors_position src1 w1 bytes (pos + Z.min r (a + b)) a b)
      as (src2 & w2 & E & _ & _); auto; try congruence; try lia.
    rewrite E. clear E.
    replace (size_of bytes - (pos + Z.min r (a + b)) <=? a) with true
      by (symmetry; apply Z.leb_le; lia).
    simpl. unfold tensor_tail_record.
    rewrite (sub_bytes_all (pos + a)), Z.add_0_r by lia. reflexivity.
  - assert (Hq : 0 <= Z.of_nat q * (a + b))
      by (apply Z.mul_nonneg_nonneg; lia).
    assert (Hsz' : size_of bytes - pos = (a + b) + (Z.of_nat q * (a + b) + r))
      by lia.
    clear Hsz.
    destruct (read_tensors_position src w bytes pos a b Ha Hb Har Hbr Hr
                ltac:(lia))
      as (src1 & w1 & E & Hr1 & Hm1).
    rewrite E. clear E.
    destruct (moved_fields _ _ Hm1) as (Hfd & Hme & _ & Hts & _).
    rewrite <- Hfd in Hr1.
    replace (size_of bytes - pos <=? a) with false
      by (symmetry; apply Z.leb_gt; lia).
    replace (Z.min (size_of bytes - pos) (a + b)) with (a + b) in Hr1 by lia.
    replace (Z.min b (size_of bytes - pos - a)) with b by lia.
    rewrite (IH src1 w1 (pos + (a + b)) r calls);
      try congruence; try lia.
    cbn [seq map app]. rewrite <- seq_shift, map_map.
    rewrite Z.add_0_r. do 3 f_equal. f_equal.
    + apply map_ext. intros i. f_equal. lia.
    + destruct (r <=? a); [reflexivity|]. do 2 f_equal. lia.
Qed.

(** X14: the whole stream of a tensor file.  With segments of [a] and [b]
    bytes, a file gives one two-segment buffer per whole record of
    [a + b] bytes.  Of the bytes left over, up to [a] are read and
    dropped with end of stream; more than [a] come out in one last buffer
    whose second segment holds only what was left, and end of stream
    follows. *)
Theorem tensor_stream_of_file
    (fmt : string -> Z -> string) (src : GstDataRepoSrc) (w : World)
    (bytes : list byte) (a b : Z) (calls : nat) :
  media src = _NNS_TENSOR ->
  nth 0 (tensors_size src) 0 = a -> nth 1 (tensors_size src) 0 = b ->
  0 < a < 2 ^ 32 -> 0 < b < 2 ^ 32 ->
  reading w (fd src) bytes 0 ->
  (Z.to_nat (size_of bytes / (a + b)) + 2 <= calls)%nat ->
  stream (gst_data_repo_src_create fmt) calls src w
  = Some (map (fun i => tensor_record a b bytes (Z.of_nat i * (a + b)))
            (seq 0 (Z.to_nat (size_of bytes / (a + b))))
          ++ (if size_of bytes mod (a + b) <=? a then []
              else [tensor_tail_record a b bytes
                      (size_of bytes / (a + b) * (a + b))]),
          Some GST_FLOW_EOS).
Proof.
  intros Hk Ha Hb Har Hbr Hr Hc.
  assert (Hq : 0 <= size_of bytes / (a + b))
    by (apply Z.div_pos; unfold size_of; lia).
  pose proof (Z.div_mod (size_of bytes) (a + b) ltac:(lia)) as Hdm.
  pose proof (Z.mod_pos_bound (size_of bytes) (a + b) ltac:(lia)) as Hmb.
  rewrite (stream_tensors fmt bytes a b
             (Z.to_nat (size_of bytes / (a + b))) src w 0
             (size_of bytes mod (a + b)) calls);
    auto; try lia.
  rewrite Z2Nat.id by lia. reflexivity.
Qed.

Lemma fifteen_world_reading :
  reading fifteen_world (fd fifteen_src) fifteen_bytes 0.
Proof. split; [exists (Some S_IFREG)|]; reflexivity. Qed.

(** Fifteen bytes in records of 4 + 2: two records; the three bytes left
    do not fill the first segment and are dropped. *)
Lemma tensor_stream_of_file_witness :
  stream (gst_data_repo_src_create printf_index) 4 fifteen_src fifteen_world
  = Some ([tensor_record 4 2 fifteen_bytes 0; tensor_record 4 2 fifteen_bytes 6],
          Some GST_FLOW_EOS).
Proof.
  apply (tensor_stream_of_file printf_index fifteen_src fifteen_world
           fifteen_bytes 4 2 4).
  - reflexivity.
  - reflexivity.
  - reflexivity.
  - split; reflexivity.
  - split; reflexivity.
  - exact fifteen_world_reading.
  - apply Nat.leb_le. reflexivity.
Defined.

(** X15: the stream of an image sequence.  When the files named by the
    pattern for the frame indices from the current one on can be read,
    up to a first one that cannot, the reads return their contents in
    that order, one whole file per buffer; the read after the last one
    ends the stream if any image was read, now or earlier, and fails
    otherwise. *)
Theorem image_stream_in_order
    (fmt : string -> Z -> string) (f : string) (contents : list (list byte))
    (src : GstDataRepoSrc) (w : World) (calls : nat) :
  media src = _NNS_IMAGE ->
  filename src = Some f ->
  (forall k c, nth_error contents k = Some c ->
     fst (g_file_get_contents w
            (Some (fmt f (frame_index src + Z.of_nat k)))) = Some c) ->
  fst (g_file_get_contents w
         (Some (fmt f (frame_index src + Z.of_nat (length contents))))) = None ->
  (length contents < calls)%nat ->
  stream (gst_data_repo_src_create fmt) calls src w
  = Some (map image_buffer contents,
          Some (if successful_read src || (0 <? length contents)%nat
                then GST_FLOW_EOS else GST_FLOW_ERROR)).
Proof.
  revert src w calls.
  induction contents as [|c contents IH]; intros src w calls Hm Hf Hk Hn Hc;
    (destruct calls as [|calls]; [simpl in Hc; lia|]); simpl stream;
    unfold gst_data_repo_src_create; rewrite Hm;
    unfold gst_data_repo_src_read_multi_images,
      gst_data_repo_src_get_image_filename; rewrite Hm, Hf.
  - cbn [length Z.of_nat] in Hn. rewrite Z.add_0_r in Hn.
    destruct (g_file_get_contents w (Some (fmt f (frame_index src))))
      as [[data|] w1];
      cbn [fst] in Hn; [discriminate|].
    rewrite orb_false_r. now destruct (successful_read src).
  - pose proof (Hk 0%nat c eq_refl) as H0. cbn [Z.of_nat] in H0.
    rewrite Z.add_0_r in H0.
    pose proof (get_contents_keeps_files w
                  (Some (fmt f (frame_index src)))) as Hw.
    destruct (g_file_get_contents w (Some (fmt f (frame_index src))))
      as [[data|] w1];
      cbn [fst snd] in H0, Hw; [|discriminate].
    injection H0 as ->.
    rewrite (IH _ w1 calls);
      cbn [frame_index set_frame_index set_successful_read media filename
           successful_read]; auto.
    + rewrite orb_true_r. reflexivity.
    + intros k c' Hc'. rewrite (get_contents_same_files w1 w) by exact Hw.
      replace (frame_index src + 1 + Z.of_nat k)
        with (frame_index src + Z.of_nat (S k)) by lia.
      now apply Hk.
    + rewrite (get_contents_same_files w1 w) by exact Hw.
      replace (frame_index src + 1 + Z.of_nat (length contents))
        with (frame_index src + Z.of_nat (length (c :: contents)))
        by (simpl length; lia).
      exact Hn.
    + simpl in Hc. lia.
Qed.

Lemma image_stream_in_order_witness :
  stream (gst_data_repo_src_create printf_index) 5
    (set_state image_ready_src GST_STATE_PAUSED) three_files
  = Some (map image_buffer three_images, Some GST_FLOW_EOS).
Proof.
  apply (image_stream_in_order printf_index "img%d.png"%string three_images
           (set_state image_ready_src GST_STATE_PAUSED) three_files 5).
  - reflexivity.
  - reflexivity.
  - intros [|[|[|k]]] c H; try (injection H as <-; reflexivity).
    destruct k; discriminate H.
  - reflexivity.
  - apply Nat.ltb_lt. reflexivity.
Defined.

(** X16: a whole session on a fixed-size file.  For the kinds with one
    fixed-size segment, when the location names a regular file, [start]
    succeeds and the reads that follow deliver the file from its first
    byte: its full records in order, then the bytes left over, if any, in
    one more buffer, then end of stream. *)
Theorem session_on_fixed_size_file
    (fmt : string -> Z -> string) (src : GstDataRepoSrc) (w : World)
    (f : string) (node : inode) (calls : nat) :
  filename src = Some f -> f <> EmptyString ->
  fixed_size_kind (media src) = true ->
  0 < media_size src < 2 ^ 32 ->
  w_path w f = inr node ->
  i_stat node = Some S_IFREG ->
  forallb transient (w_events w) = true ->
  (Z.to_nat (size_of (i_data node) / media_size src) + 2 <= calls)%nat ->
  let started := gst_data_repo_src_start fmt src w in
  fst (fst started) = true
  /\ stream (gst_data_repo_src_create fmt) calls
       (snd (fst started)) (snd started)
     = Some (map (fun i => full_record (media_size src) (i_data node)
                             (Z.of_nat i * media_size src))
               (seq 0 (Z.to_nat (size_of (i_data node) / media_size src)))
             ++ (if size_of (i_data node) mod media_size src =? 0 then []
                 else [tail_record (media_size src) (i_data node)
                         (size_of (i_data node) / media_size src
                          * media_size src)]),
             Some GST_FLOW_EOS).
Proof.
  intros Hf Hne Hk Hs Hnode Hst Hev Hc started. unfold started.
  assert (Hi : is_image (media src) = false)
    by (destruct (media src); now try discriminate).
  rewrite (start_opened fmt src w f node Hf Hne)
    by (unfold start_name; now rewrite Hi).
  unfold start_name. rewrite Hst, Hi. cbv zeta. cbn [fst snd].
  split; [reflexivity|].
  set (bytes := i_data node) in *.
  assert (Hq : 0 <= size_of bytes / media_size src)
    by (apply Z.div_pos; unfold size_of; lia).
  pose proof (Z.div_mod (size_of bytes) (media_size src) ltac:(lia)) as Hdm.
  pose proof (Z.mod_pos_bound (size_of bytes) (media_size src) ltac:(lia)) as Hmb.
  rewrite (stream_fixed_size fmt bytes
             (Z.to_nat (size_of bytes / media_size src)) _ _ 0
             (size_of bytes mod media_size src) calls);
    simpl; auto; try lia.
  - rewrite Z2Nat.id by lia. reflexivity.
  - split; [|exact Hev]. exists (Some S_IFREG). simpl.
    rewrite Z.eqb_refl. unfold bytes. destruct node. simpl in *. now subst.
Qed.

Lemma session_on_fixed_size_file_witness :
  let started :=
    gst_data_repo_src_start printf_index video_ready_src video_files in
  fst (fst started) = true
  /\ stream (gst_data_repo_src_create printf_index) 3
       (snd (fst started)) (snd started)
     = Some ([full_record 4 six_bytes 0; tail_record 4 six_bytes 4],
             Some GST_FLOW_EOS).
Proof.
  apply (session_on_fixed_size_file printf_index video_ready_src video_files
           "f.dat"%string (regular_file six_bytes) 3).
  - reflexivity.
  - discriminate.
  - reflexivity.
  - split; reflexivity.
  - reflexivity.
  - reflexivity.
  - reflexivity.
  - apply Nat.leb_le. reflexivity.
Defined.
